(** * MindFresh: the mood-driven recommendation page

    A shallow embedding of [src/pages/Recommendations.tsx] (the page that
    [App.tsx] routes to [/recommendations]) and the properties of its
    mood classifier, its three source adapters, the refresh orchestrator,
    the playback set and the book detail selection.

    Conventions of the embedding:
    - a JS [number] that the page only uses as an integer (mood value,
      track duration in seconds) is a [Z]; where the page divides and
      prints it ([formatDuration]) the embedding covers the safe
      integers, on which the arithmetic of doubles is exact;
    - a JS string is a [string] (a sequence of UTF-8 bytes); a string
      that comes in a request body, which need not be well formed, is a
      [Relay.js_string];
    - [Set<string>] is a [gset string];
    - a component state variable set through [setX] is a field of the
      record [state]; the toasts and the console lines the page emits are
      logged in the same record;
    - an [async] function body with its [try]/[catch] is a computation in
      the state-and-exception monad [JS]; what the awaited calls answer
      is read from a [world].

    After the page come its display helpers, the video relay that the
    video adapter invokes ([Relay]) and the journal page ([Journal]),
    each with its own properties. *)

From Stdlib Require Import ZArith String Ascii List Bool Lia DecimalString DecimalZ.
From stdpp Require Import base decidable option list gmap sets strings.

Local Open Scope string_scope.
Local Open Scope list_scope.
Local Open Scope Z_scope.

(** ** Data model (the interfaces of lines 11-48) *)

Record Track := {
  track_id : string;
  track_title : string;
  track_user_name : string;
  track_genre : option string;
  duration : Z
}.

Record YouTubeVideo := {
  videoId : string;
  video_title : string;
  channelTitle : string;
  video_description : string;
  thumbnail_medium_url : string
}.

Record Book := {
  book_id : string;
  book_title : string;
  authors : option (list string);
  book_description : option string;
  imageLinks_thumbnail : option string;
  publishedDate : option string
}.

Record QueryBundle := {
  musicQuery : string;
  podcastQuery : string;
  bookQuery : string
}.

(** What a state variable declared as an array holds at run time: the
    setters store whatever they are given, so a provider field that is
    not an array ends up in the state as it is. *)
Inductive stored (A : Type) : Type :=
| IsArray (l : list A)
| NotArray.
Arguments IsArray {A} l.
Arguments NotArray {A}.

Record toast_message := {
  toast_title : string;
  toast_description : string;
  toast_variant : string
}.

Record state := {
  currentMood : Z;
  tracks : list Track;
  videos : stored YouTubeVideo;
  books : stored Book;
  loading : bool;
  playingTracks : gset string;
  selectedBook : option Book;
  toasts : list toast_message;
  console : list string
}.

(** The [useState] initial values of lines 51-57; nothing has been
    notified or logged yet. *)
Definition initial_state : state := {|
  currentMood := 5;
  tracks := [];
  videos := IsArray [];
  books := IsArray [];
  loading := true;
  playingTracks := ∅;
  selectedBook := None;
  toasts := [];
  console := []
|}.

(** ** The mood classifier (lines 62-82) *)

Definition getMoodBasedContent (mood : Z) : QueryBundle :=
  if mood <=? 3 then
    {| musicQuery := "relaxing meditation ambient";
       podcastQuery := "mental health therapy mindfulness";
       bookQuery := "self help depression anxiety" |}
  else if mood <=? 6 then
    {| musicQuery := "chill peaceful calm";
       podcastQuery := "motivation wellness lifestyle";
       bookQuery := "psychology happiness mindfulness" |}
  else
    {| musicQuery := "uplifting energetic positive";
       podcastQuery := "success motivation inspiration";
       bookQuery := "personal development success happiness" |}.

(** ** [encodeURIComponent]

    Every byte of the UTF-8 form of the string is kept when it is one of
    the unreserved marks [A-Z a-z 0-9 - _ . ! ~ * ' ( )] and is written
    [%XX] in upper-case hexadecimal otherwise. *)

Definition is_unreserved (c : ascii) : bool :=
  let n := N_of_ascii c in
  ((65 <=? n) && (n <=? 90))%N || ((97 <=? n) && (n <=? 122))%N ||
  ((48 <=? n) && (n <=? 57))%N ||
  existsb (Ascii.eqb c)
    ["-"; "_"; "."; "!"; "~"; "*"; "'"; "("; ")"]%char.

Definition hex_digit (n : N) : ascii :=
  if (n <? 10)%N then ascii_of_N (48 + n) else ascii_of_N (55 + n).

Definition percent_encode (c : ascii) : string :=
  let n := N_of_ascii c in
  String "%"%char (String (hex_digit (n / 16)) (String (hex_digit (n mod 16)) EmptyString)).

Fixpoint encodeURIComponent (s : string) : string :=
  match s with
  | EmptyString => EmptyString
  | String c rest =>
      if is_unreserved c then String c (encodeURIComponent rest)
      else percent_encode c +:+ encodeURIComponent rest
  end.

(** ** The monad of the handlers: state and exceptions *)

Inductive exn : Type :=
| NetworkError          (* a rejected [fetch] or [invoke] promise *)
| SyntaxError           (* [response.json()] on a body that is not JSON *)
| TypeError             (* a property read on [null], a call of a non-function *)
| FunctionsError (message : string).  (* the [error] that [invoke] answers *)

Inductive completion (A : Type) : Type :=
| Normal (a : A)
| Throw (e : exn).
Arguments Normal {A} a.
Arguments Throw {A} e.

Definition JS (A : Type) : Type := state → completion A * state.

#[global] Instance JS_ret : MRet JS := λ A a st, (Normal a, st).

#[global] Instance JS_bind : MBind JS := λ A B f m st,
  match m st with
  | (Normal a, st') => f a st'
  | (Throw e, st') => (Throw e, st')
  end.

Definition throw {A : Type} (e : exn) : JS A := λ st, (Throw e, st).

(** [try { body } catch (error) { handler }] *)
Definition try_catch {A : Type} (body : JS A) (handler : exn → JS A) : JS A :=
  λ st,
  match body st with
  | (Normal a, st') => (Normal a, st')
  | (Throw e, st') => handler e st'
  end.

(** The setters, [toast] and [console.error]. *)

Definition setCurrentMood (v : Z) : JS unit := λ st,
  (Normal (), {| currentMood := v; tracks := tracks st; videos := videos st;
    books := books st; loading := loading st; playingTracks := playingTracks st;
    selectedBook := selectedBook st; toasts := toasts st; console := console st |}).

Definition setTracks (v : list Track) : JS unit := λ st,
  (Normal (), {| currentMood := currentMood st; tracks := v; videos := videos st;
    books := books st; loading := loading st; playingTracks := playingTracks st;
    selectedBook := selectedBook st; toasts := toasts st; console := console st |}).

Definition setVideos (v : stored YouTubeVideo) : JS unit := λ st,
  (Normal (), {| currentMood := currentMood st; tracks := tracks st; videos := v;
    books := books st; loading := loading st; playingTracks := playingTracks st;
    selectedBook := selectedBook st; toasts := toasts st; console := console st |}).

Definition setBooks (v : stored Book) : JS unit := λ st,
  (Normal (), {| currentMood := currentMood st; tracks := tracks st; videos := videos st;
    books := v; loading := loading st; playingTracks := playingTracks st;
    selectedBook := selectedBook st; toasts := toasts st; console := console st |}).

Definition setLoading (v : bool) : JS unit := λ st,
  (Normal (), {| currentMood := currentMood st; tracks := tracks st; videos := videos st;
    books := books st; loading := v; playingTracks := playingTracks st;
    selectedBook := selectedBook st; toasts := toasts st; console := console st |}).

(** [setPlayingTracks(prev => ...)]: the functional form of the setter. *)
Definition setPlayingTracks (f : gset string → gset string) : JS unit := λ st,
  (Normal (), {| currentMood := currentMood st; tracks := tracks st; videos := videos st;
    books := books st; loading := loading st; playingTracks := f (playingTracks st);
    selectedBook := selectedBook st; toasts := toasts st; console := console st |}).

Definition setSelectedBook (v : option Book) : JS unit := λ st,
  (Normal (), {| currentMood := currentMood st; tracks := tracks st; videos := videos st;
    books := books st; loading := loading st; playingTracks := playingTracks st;
    selectedBook := v; toasts := toasts st; console := console st |}).

Definition toast (t : toast_message) : JS unit := λ st,
  (Normal (), {| currentMood := currentMood st; tracks := tracks st; videos := videos st;
    books := books st; loading := loading st; playingTracks := playingTracks st;
    selectedBook := selectedBook st; toasts := toasts st ++ [t]; console := console st |}).

Definition console_error (line : string) : JS unit := λ st,
  (Normal (), {| currentMood := currentMood st; tracks := tracks st; videos := videos st;
    books := books st; loading := loading st; playingTracks := playingTracks st;
    selectedBook := selectedBook st; toasts := toasts st; console := console st ++ [line] |}).

(** Run a handler for its effect on the state. *)
Definition exec {A : Type} (m : JS A) (st : state) : state := snd (m st).
Definition outcome {A : Type} (m : JS A) (st : state) : completion A := fst (m st).

(** ** What the providers answer *)

(** The property of a parsed JSON body in which a provider puts its
    result list ([data] for the track provider, [items] for the other
    two): absent or otherwise falsy, an array, or some other truthy
    value. *)
Inductive field (A : Type) : Type :=
| Absent
| Array (l : list A)
| Other.
Arguments Absent {A}.
Arguments Array {A} l.
Arguments Other {A}.

(** A parsed JSON body: [null], on which a property read throws, or a
    value whose list property is the given [field] (a primitive other
    than [null] has no property at all: [JsonValue Absent]). *)
Inductive json (A : Type) : Type :=
| JsonNull
| JsonValue (f : field A).
Arguments JsonNull {A}.
Arguments JsonValue {A} f.

(** A [fetch] response: its [ok] flag and what [response.json()] resolves
    to ([None] when the body is not JSON and the promise rejects). *)
Record Response (A : Type) := {
  ok : bool;
  body : option (json A)
}.
Arguments ok {A} _.
Arguments body {A} _.

(** The [{ data, error }] pair that [supabase.functions.invoke] resolves to. *)
Record FunctionsResponse (A : Type) := {
  data : json A;
  error : option string
}.
Arguments data {A} _.
Arguments error {A} _.

Record MoodRow := { mood_value : Z }.

(** The [{ data, error }] pair of the [moodTable] query. *)
Record PostgrestResponse := {
  rows : option (list MoodRow);
  query_error : option string
}.

Record User := { user_id : string }.

(** The outside world: per provider, what the promise of a call settles
    to ([None]: the promise rejects). The two [fetch] providers are keyed
    by the URL, the relay by the query of the request body, the mood
    table by the user id. *)
Record world := {
  audius : string → option (Response Track);
  google_books : string → option (Response Book);
  youtube_search : string → option (FunctionsResponse YouTubeVideo);
  moodTable : string → option PostgrestResponse
}.

Definition await {A : Type} (promise : option A) : JS A :=
  match promise with
  | Some v => mret v
  | None => throw NetworkError
  end.

Definition response_json {A : Type} (response : Response A) : JS (json A) :=
  match body response with
  | Some j => mret j
  | None => throw SyntaxError
  end.

(** [data.data], [data.items] *)
Definition get_field {A : Type} (j : json A) : JS (field A) :=
  match j with
  | JsonNull => throw TypeError
  | JsonValue f => mret f
  end.

Definition truthy {A : Type} (f : field A) : bool :=
  match f with
  | Absent => false
  | Array _ | Other => true
  end.

Definition as_stored {A : Type} (f : field A) : stored A :=
  match f with
  | Array l => IsArray l
  | Absent | Other => NotArray
  end.

(** [f || []] *)
Definition or_empty {A : Type} (f : field A) : stored A :=
  if truthy f then as_stored f else IsArray [].

(** [v.filter(p)]: a value that is not an array has no [filter] method. *)
Definition array_filter {A : Type} (p : A → bool) (v : stored A) : JS (list A) :=
  match v with
  | IsArray l => mret (List.filter p l)
  | NotArray => throw TypeError
  end.

(** [l.slice(start, stop)] for indices that are not negative. *)
Definition slice {A : Type} (start stop : nat) (l : list A) : list A :=
  take (stop - start) (drop start l).

(** ** The three source adapters (lines 103-164) *)

Definition audius_url (query : string) : string :=
  "https://discoveryprovider.audius.co/v1/tracks/search?query="
    +:+ encodeURIComponent query +:+ "&limit=20&app_name=mindfresh".

Definition books_url (query : string) : string :=
  "https://www.googleapis.com/books/v1/volumes?q="
    +:+ encodeURIComponent query +:+ "&maxResults=6".

Definition music_toast : toast_message :=
  {| toast_title := "Error";
     toast_description := "Failed to load music recommendations";
     toast_variant := "destructive" |}.

Definition podcast_toast : toast_message :=
  {| toast_title := "Error";
     toast_description := "Failed to load podcast recommendations";
     toast_variant := "destructive" |}.

Definition book_toast : toast_message :=
  {| toast_title := "Error";
     toast_description := "Failed to load book recommendations";
     toast_variant := "destructive" |}.

Definition fetchAudiusTracks (w : world) (query : string) : JS unit :=
  try_catch
    (response ← await (audius w (audius_url query));
     if ok response then
       data ← response_json response;
       data_data ← get_field data;
       fullTracks ← array_filter (λ track, duration track >? 30) (or_empty data_data);
       setTracks (slice 0 6 fullTracks)
     else mret ())
    (λ error,
       console_error "Failed to fetch Audius tracks:";;
       toast music_toast).

Definition fetchYouTubeVideos (w : world) (query : string) : JS unit :=
  try_catch
    (r ← await (youtube_search w query);
     match error r with
     | Some e => throw (FunctionsError e)
     | None =>
         match data r with
         | JsonNull => mret ()
         | JsonValue items =>
             if truthy items then setVideos (as_stored items) else mret ()
         end
     end)
    (λ error,
       console_error "Failed to fetch YouTube videos:";;
       toast podcast_toast).

Definition fetchBooks (w : world) (query : string) : JS unit :=
  try_catch
    (response ← await (google_books w (books_url query));
     if ok response then
       data ← response_json response;
       items ← get_field data;
       setBooks (or_empty items)
     else mret ())
    (λ error,
       console_error "Failed to fetch books:";;
       toast book_toast).

(** ** The mood store read (lines 84-101) *)

Definition fetchUserMood (w : world) (user : option User) : JS unit :=
  match user with
  | None => mret ()
  | Some u =>
      try_catch
        (r ← await (moodTable w (user_id u));
         match query_error r, rows r with
         | None, Some (row :: _) => setCurrentMood (mood_value row)
         | _, _ => mret ()
         end)
        (λ error, console_error "Failed to fetch mood:")
  end.

(** ** The refresh orchestrator (lines 166-177)

    [loadRecommendations] runs up to its [await Promise.all([...])] when
    it is called: it sets [loading], computes the query bundle and issues
    the three adapter calls. Each adapter then settles at some later turn
    of the event loop, in any order; the state effects of an adapter all
    happen in the turn in which it settles. When the last of the three
    has settled the join resolves and line 176 clears [loading]; were an
    adapter to throw, the join would reject and line 176 would not run. *)

Inductive adapter : Type := Audius | YouTube | GoogleBooks.

#[global] Instance adapter_eq_dec : EqDecision adapter.
Proof. solve_decision. Defined.

Inductive join : Type :=
| Waiting        (* some adapter has not settled *)
| Fulfilled      (* all settled, [loading] cleared *)
| Rejected (e : exn).

Record task := {
  content : QueryBundle;
  awaiting : list adapter;
  status : join
}.

Definition run_adapter (w : world) (c : QueryBundle) (a : adapter) : JS unit :=
  match a with
  | Audius => fetchAudiusTracks w (musicQuery c)
  | YouTube => fetchYouTubeVideos w (podcastQuery c)
  | GoogleBooks => fetchBooks w (bookQuery c)
  end.

(** Lines 167-174, up to the [await]. *)
Definition loadRecommendations_begin (st : state) : state * task :=
  let st1 := exec (setLoading true) st in
  let c := getMoodBasedContent (currentMood st1) in
  (st1, {| content := c; awaiting := [Audius; YouTube; GoogleBooks]; status := Waiting |}).

(** The turn in which adapter [a] of task [t] settles. *)
Definition settle (w : world) (a : adapter) (s : state * task) : state * task :=
  let '(st, t) := s in
  if decide (a ∈ awaiting t) then
    let rest := List.filter (λ b, negb (bool_decide (b = a))) (awaiting t) in
    match run_adapter w (content t) a st, status t with
    | (Normal _, st'), Waiting =>
        match rest with
        | [] => (exec (setLoading false) st',
                 {| content := content t; awaiting := rest; status := Fulfilled |})
        | _ :: _ => (st', {| content := content t; awaiting := rest; status := Waiting |})
        end
    | (Throw e, st'), Waiting =>
        (st', {| content := content t; awaiting := rest; status := Rejected e |})
    | (_, st'), j => (st', {| content := content t; awaiting := rest; status := j |})
    end
  else (st, t).

Arguments settle : simpl never.

(** The adapters of a task settling one after the other, in the given order. *)
Definition settle_all (w : world) (order : list adapter) (s : state * task) : state * task :=
  foldl (λ acc a, settle w a acc) s order.

Definition loadRecommendations (w : world) (order : list adapter) (st : state) : state * task :=
  settle_all w order (loadRecommendations_begin st).

(** ** Playback (lines 179-189 and the [audio] handlers of lines 289-294) *)

Definition playTrack (trackId : string) : JS unit :=
  setPlayingTracks (λ prev,
    let newSet := prev in
    if decide (trackId ∈ newSet) then newSet ∖ {[trackId]}
    else newSet ∪ {[trackId]}).

Definition onPlay (trackId : string) : JS unit :=
  setPlayingTracks (λ prev, prev ∪ {[trackId]}).

Definition onPause (trackId : string) : JS unit :=
  setPlayingTracks (λ prev, let newSet := prev in newSet ∖ {[trackId]}).

Inductive playback_event : Type :=
| TogglePlay (trackId : string)    (* the Play/Pause button of a track card *)
| MediaPlay (trackId : string)     (* [onPlay] of the track's audio element *)
| MediaPause (trackId : string).   (* [onPause]: paused or ended *)

Definition playback_handler (e : playback_event) : JS unit :=
  match e with
  | TogglePlay x => playTrack x
  | MediaPlay x => onPlay x
  | MediaPause x => onPause x
  end.

Definition playback_run (es : list playback_event) (st : state) : state :=
  foldl (λ s e, exec (playback_handler e) s) st es.

(** [playingTracks.has(track.id)]: the card of the track shows Pause. *)
Definition reports_playing (st : state) (trackId : string) : bool :=
  bool_decide (trackId ∈ playingTracks st).

(** ** Book detail selection (lines 340 and 374-380) *)

Inductive selection_event : Type :=
| ClickBookCard (book : Book)
| ClickOverlay
| ClickCloseButton
| ClickDetailContent.   (* [stopPropagation]: the overlay handler does not run *)

Definition selection_handler (e : selection_event) : JS unit :=
  match e with
  | ClickBookCard book => setSelectedBook (Some book)
  | ClickOverlay => setSelectedBook None
  | ClickCloseButton => setSelectedBook None
  | ClickDetailContent => mret ()
  end.

(** ** What is rendered (lines 246-263, 310, 339) *)

Inductive music_section : Type :=
| NoMusicFound                   (* the text of line 261 *)
| TrackCards (l : list Track).

Record view := {
  loading_banner : bool;
  music : music_section;
  video_cards : stored YouTubeVideo;
  book_cards : stored Book
}.

Definition render (st : state) : view := {|
  loading_banner := loading st;
  music :=
    if (length (tracks st) =? 0)%nat && negb (loading st) then NoMusicFound
    else TrackCards (tracks st);
  video_cards := videos st;
  book_cards := books st
|}.

(** ** The page: state, refreshes in flight, effects (lines 209-217) *)

Record page := {
  ui : state;
  refreshes : list task
}.

(** The effect on [currentMood] (lines 213-217). *)
Definition mood_effect (p : page) : page :=
  if bool_decide (currentMood (ui p) ≠ 0) then
    let '(st, t) := loadRecommendations_begin (ui p) in
    {| ui := st; refreshes := refreshes p ++ [t] |}
  else p.

(** First render: both effects run; [fetchUserMood] only issues its query. *)
Definition mount : page :=
  mood_effect {| ui := initial_state; refreshes := [] |}.

Inductive event : Type :=
| MoodStoreSettles (user : option User)     (* a [fetchUserMood] call completes *)
| AdapterSettles (i : nat) (a : adapter)    (* adapter [a] of the [i]-th refresh *)
| ClickRefresh
| Playback (e : playback_event)
| Selection (e : selection_event).

Definition step (w : world) (p : page) (e : event) : page :=
  match e with
  | MoodStoreSettles user =>
      let st := exec (fetchUserMood w user) (ui p) in
      let p' := {| ui := st; refreshes := refreshes p |} in
      if bool_decide (currentMood st = currentMood (ui p)) then p' else mood_effect p'
  | AdapterSettles i a =>
      match refreshes p !! i with
      | Some t =>
          let '(st, t') := settle w a (ui p, t) in
          {| ui := st; refreshes := <[i := t']> (refreshes p) |}
      | None => p
      end
  | ClickRefresh =>
      if loading (ui p) then p   (* the button is disabled *)
      else
        let '(st, t) := loadRecommendations_begin (ui p) in
        {| ui := st; refreshes := refreshes p ++ [t] |}
  | Playback e =>
      {| ui := exec (playback_handler e) (ui p); refreshes := refreshes p |}
  | Selection e =>
      {| ui := exec (selection_handler e) (ui p); refreshes := refreshes p |}
  end.

(** A run: each event with the world as it answers in that turn. *)
Definition run (p : page) (es : list (world * event)) : page :=
  foldl (λ q we, step we.1 q we.2) p es.

(** The mood store has no reading to give: the query rejects, answers an
    error, answers no data or answers an empty list of rows. *)
Definition no_reading (answer : option PostgrestResponse) : bool :=
  match answer with
  | None => true
  | Some r =>
      match query_error r, rows r with
      | Some _, _ => true
      | None, None => true
      | None, Some l => bool_decide (l = [])
      end
  end.

Definition is_manual_refresh (e : event) : bool :=
  match e with ClickRefresh => true | _ => false end.

Definition store_silent (we : world * event) : bool :=
  match we.2 with
  | MoodStoreSettles (Some u) => no_reading (moodTable we.1 (user_id u))
  | _ => true
  end.

(** ** The earlier playback handler

    The copy of the page that keeps a single current track (its lines
    55-56 and 176-184) instead of a set. *)
Module Legacy.

Record playback := {
  currentTrack : option string;
  isPlaying : bool
}.

Definition initial : playback :=
  {| currentTrack := None; isPlaying := false |}.

Definition playTrack (trackId : string) (p : playback) : playback :=
  if bool_decide (currentTrack p = Some trackId) && isPlaying p then
    {| currentTrack := None; isPlaying := false |}
  else
    {| currentTrack := Some trackId; isPlaying := true |}.

End Legacy.

(** ** Scenarios: worlds with fixed answers *)

Definition offline : world := {|
  audius := λ _, None;
  google_books := λ _, None;
  youtube_search := λ _, None;
  moodTable := λ _, None
|}.

Definition with_audius (r : option (Response Track)) (w : world) : world := {|
  audius := λ _, r;
  google_books := google_books w;
  youtube_search := youtube_search w;
  moodTable := moodTable w
|}.

Definition with_books (r : option (Response Book)) (w : world) : world := {|
  audius := audius w;
  google_books := λ _, r;
  youtube_search := youtube_search w;
  moodTable := moodTable w
|}.

Definition with_youtube (r : option (FunctionsResponse YouTubeVideo)) (w : world) : world := {|
  audius := audius w;
  google_books := google_books w;
  youtube_search := λ _, r;
  moodTable := moodTable w
|}.

Definition with_moods (r : option PostgrestResponse) (w : world) : world := {|
  audius := audius w;
  google_books := google_books w;
  youtube_search := youtube_search w;
  moodTable := λ _, r
|}.

(** A success answer of a [fetch] provider carrying the given list. *)
Definition ok_with {A : Type} (items : list A) : option (Response A) :=
  Some {| ok := true; body := Some (JsonValue (Array items)) |}.

Definition http_error {A : Type} : option (Response A) :=
  Some {| ok := false; body := Some (JsonValue Absent) |}.

Definition invoke_with {A : Type} (items : list A) : option (FunctionsResponse A) :=
  Some {| data := JsonValue (Array items); error := None |}.

Definition a_track (name : string) (seconds : Z) : Track := {|
  track_id := name; track_title := name; track_user_name := "artist";
  track_genre := None; duration := seconds
|}.

Definition a_book (name : string) : Book := {|
  book_id := name; book_title := name; authors := None;
  book_description := None; imageLinks_thumbnail := None; publishedDate := None
|}.

Definition a_video (name : string) : YouTubeVideo := {|
  videoId := name; video_title := name; channelTitle := "channel";
  video_description := name; thumbnail_medium_url := name
|}.

(** ** The ways a provider call fails *)

Inductive failure : Type :=
| TransportError     (* the promise of the call rejects *)
| BadStatus          (* [response.ok] is false; [invoke] answers an [error] *)
| UnparsableBody.    (* [response.json()] rejects *)

Definition fetch_failure {A : Type} (answer : option (Response A)) : option failure :=
  match answer with
  | None => Some TransportError
  | Some r =>
      if ok r then
        match body r with
        | None => Some UnparsableBody
        | Some _ => None
        end
      else Some BadStatus
  end.

Definition invoke_failure {A : Type} (answer : option (FunctionsResponse A)) : option failure :=
  match answer with
  | None => Some TransportError
  | Some r =>
      match error r with
      | Some _ => Some BadStatus
      | None => None
      end
  end.

Definition adapter_failure (w : world) (c : QueryBundle) (a : adapter) : option failure :=
  match a with
  | Audius => fetch_failure (audius w (audius_url (musicQuery c)))
  | YouTube => invoke_failure (youtube_search w (podcastQuery c))
  | GoogleBooks => fetch_failure (google_books w (books_url (bookQuery c)))
  end.

Definition failure_toast (a : adapter) : toast_message :=
  match a with
  | Audius => music_toast
  | YouTube => podcast_toast
  | GoogleBooks => book_toast
  end.

Definition seven_books : list Book :=
  [a_book "b1"; a_book "b2"; a_book "b3"; a_book "b4"; a_book "b5";
   a_book "b6"; a_book "b7"].

Definition seven_videos : list YouTubeVideo :=
  [a_video "v1"; a_video "v2"; a_video "v3"; a_video "v4"; a_video "v5";
   a_video "v6"; a_video "v7"].

Definition no_rows : option PostgrestResponse :=
  Some {| rows := Some []; query_error := None |}.

(** The page after a refresh that found one track. *)
Definition one_track_state : state :=
  exec (setTracks [a_track "t1" 200]) initial_state.

(** The book provider answers a non-success status; nothing else is reachable. *)
Definition books_down : world := with_books http_error offline.

(** Both the relay and the book provider answer seven items. *)
Definition generous : world :=
  with_youtube (invoke_with seven_videos) (with_books (ok_with seven_books) offline).

(** One video and two books. *)
Definition small_answers : world :=
  with_youtube (invoke_with [a_video "v1"])
    (with_books (ok_with [a_book "b1"; a_book "b2"]) offline).

(** A track search answering a teaser, a song and a mix. *)
Definition three_tracks : list Track :=
  [a_track "teaser" 15; a_track "song" 45; a_track "mix" 200].

Definition audius_up : world := with_audius (ok_with three_tracks) offline.

(** Tracks arrive, the book search answers a non-success status, the
    relay is unreachable. *)
Definition partly_down : world :=
  with_audius (ok_with [a_track "song" 45]) (with_books http_error offline).

(** Tracks and books arrive, the relay is unreachable. *)
Definition videos_down : world :=
  with_audius (ok_with [a_track "song" 45]) (with_books (ok_with [a_book "b1"]) offline).

(** The mood table has no row for the user; the track search works. *)
Definition no_mood_yet : world :=
  with_audius (ok_with [a_track "song" 45]) (with_moods no_rows offline).

Definition the_user : option User := Some {| user_id := "u1" |}.

(** ** Notions used in the statements *)

(** The adapters still awaited once [a] has settled. *)
Definition others (a : adapter) (l : list adapter) : list adapter :=
  List.filter (λ b, negb (bool_decide (b = a))) l.

(** The three fixed bundles, as the specification lists them. *)

Definition low_bundle : QueryBundle :=
  {| musicQuery := "relaxing meditation ambient";
     podcastQuery := "mental health therapy mindfulness";
     bookQuery := "self help depression anxiety" |}.

Definition middle_bundle : QueryBundle :=
  {| musicQuery := "chill peaceful calm";
     podcastQuery := "motivation wellness lifestyle";
     bookQuery := "psychology happiness mindfulness" |}.

Definition high_bundle : QueryBundle :=
  {| musicQuery := "uplifting energetic positive";
     podcastQuery := "success motivation inspiration";
     bookQuery := "personal development success happiness" |}.

(** The mood is the default and the refresh of the mount is the only one. *)
Definition defaulted (p : page) : Prop :=
  currentMood (ui p) = 5 ∧
  ∃ t, refreshes p = [t] ∧ content t = middle_bundle.

Definition event_track (e : playback_event) : string :=
  match e with
  | TogglePlay x | MediaPlay x | MediaPause x => x
  end.



(** ** Display helpers (lines 191-207) *)

(** The numbers of the page are IEEE doubles. A double holds an integer
    exactly up to [Number.MAX_SAFE_INTEGER] in absolute value; on such a
    seconds count the floor of the quotient by 60, the remainder and the
    decimal printing of [formatDuration] are exact, so that integer
    arithmetic gives what the code gives. Beyond that range the division
    rounds and the printing shortens the digits; this development does
    not cover it. *)
Definition MAX_SAFE_INTEGER : Z := 2 ^ 53 - 1.

(** [Number.isSafeInteger(n)], for an integer [n]. *)
Definition isSafeInteger (n : Z) : bool :=
  (- MAX_SAFE_INTEGER <=? n) && (n <=? MAX_SAFE_INTEGER).

(** [n.toString()] and the conversion of a template literal, for a
    number that is a safe integer: its decimal digits, with a minus sign
    when it is negative. *)
Definition number_toString (n : Z) : string :=
  NilZero.string_of_int (Z.to_int n).

(** The characters that [padStart] puts in front: [n] characters taken
    from [pad] repeated ([cur] is what is left of the current copy);
    nothing when [pad] is empty. *)
Fixpoint fill (n : nat) (pad cur : string) : string :=
  match n with
  | O => EmptyString
  | S n' =>
      match cur with
      | String c rest => String c (fill n' pad rest)
      | EmptyString =>
          match pad with
          | String c rest => String c (fill n' pad rest)
          | EmptyString => EmptyString
          end
      end
  end.

(** [s.padStart(targetLength, padString)] *)
Definition padStart (targetLength : nat) (padString : string) (s : string) : string :=
  fill (targetLength - String.length s) padString padString +:+ s.

(** Lines 191-195, for a seconds count that is a safe integer; [None]
    stands for a count outside the range covered here, not for a
    failure of the code. *)
Definition formatDuration (seconds : Z) : option string :=
  if isSafeInteger seconds then
    let mins := seconds / 60 in
    let secs := Z.rem seconds 60 in
    Some (number_toString mins +:+ ":" +:+ padStart 2 "0" (number_toString secs))
  else None.

Definition getMoodDescription (mood : Z) : string :=
  if mood <=? 3 then "uplifting and calming"
  else if mood <=? 6 then "peaceful and balanced"
  else "energizing and positive".

Definition getMoodEmoji (mood : Z) : string :=
  if mood <=? 3 then "😔"
  else if mood <=? 6 then "🙂"
  else "😊".

(** The text up to the first colon, and the text after it. *)
Fixpoint before_colon (s : string) : string :=
  match s with
  | EmptyString => EmptyString
  | String c rest => if Ascii.eqb c ":" then EmptyString else String c (before_colon rest)
  end.

Fixpoint after_colon (s : string) : string :=
  match s with
  | EmptyString => EmptyString
  | String c rest => if Ascii.eqb c ":" then rest else after_colon rest
  end.

(** The value of a decimal digit character. *)
Definition digit_value (c : ascii) : Z := Z.of_N (N_of_ascii c) - 48.

Definition is_digit (c : ascii) : bool :=
  ((48 <=? N_of_ascii c) && (N_of_ascii c <=? 57))%N.

(** ** Further notions and scenarios for the statements *)

(** The notifications that adapter [a] emits in world [w]: those of a
    call on a page that has emitted none. *)
Definition emitted (w : world) (c : QueryBundle) (a : adapter) : list toast_message :=
  toasts (exec (run_adapter w c a) initial_state).

(** A success answer of a [fetch] provider with the given parsed body. *)
Definition ok_body {A : Type} (j : json A) : option (Response A) :=
  Some {| ok := true; body := Some j |}.

(** An answer of the relay call without error, with the given data. *)
Definition invoke_data {A : Type} (j : json A) : option (FunctionsResponse A) :=
  Some {| data := j; error := None |}.

(** What holds of the page along every run: there is a refresh, none has
    been rejected, and [loading] is false only once one is fulfilled. *)
Definition settled_before_idle (p : page) : Prop :=
  refreshes p ≠ [] ∧
  (∀ j t e, refreshes p !! j = Some t → status t ≠ Rejected e) ∧
  (loading (ui p) = false → ∃ j t, refreshes p !! j = Some t ∧ status t = Fulfilled).

(** The mood store has a reading of 8. *)
Definition mood_8 : world :=
  with_moods (Some {| rows := Some [{| mood_value := 8 |}]; query_error := None |}) offline.

(** The page after the mount, a mood reading of 8 that starts a second
    refresh, and two of the three adapters of the first refresh. *)
Definition two_refreshes_in_flight : page :=
  run mount [(mood_8, MoodStoreSettles the_user);
             (mood_8, AdapterSettles 0 Audius);
             (mood_8, AdapterSettles 0 YouTube)].

(** A track provider that answers the query of the middle band with one
    track and every other query with another. *)
Definition by_query : world :=
  {| audius := λ url,
       if String.eqb url (audius_url "chill peaceful calm")
       then ok_with [a_track "calm" 100] else ok_with [a_track "upbeat" 100];
     google_books := λ _, None;
     youtube_search := λ _, None;
     moodTable := λ _, Some {| rows := Some [{| mood_value := 8 |}]; query_error := None |} |}.

(** The mount, a mood reading of 8 that starts a second refresh, and the
    track answer of that second refresh. *)
Definition newer_answer_first : page :=
  run mount [(by_query, MoodStoreSettles the_user); (by_query, AdapterSettles 1 Audius)].

(** ** Refreshes on the page, one beside the other *)

(** A refresh is started on the page: what the mood effect does for a
    mood that is not 0, and the refresh button when it is enabled. *)
Definition start_refresh (p : page) : page :=
  let '(st, t) := loadRecommendations_begin (ui p) in
  {| ui := st; refreshes := refreshes p ++ [t] |}.

(** The state of the join of a refresh that awaits the given adapters
    and of which none has thrown. *)
Definition join_of (awaited : list adapter) : join :=
  match awaited with
  | [] => Fulfilled
  | _ :: _ => Waiting
  end.

(** The event is the turn in which adapter [a] of the [i]-th refresh
    settles. *)
Definition settles (i : nat) (a : adapter) (e : event) : bool :=
  match e with
  | AdapterSettles j b => bool_decide (j = i) && bool_decide (a = b)
  | _ => false
  end.

(** Adapter [a] of the [i]-th refresh settles in the course of the
    events. *)
Definition settled (i : nat) (a : adapter) (es : list (world * event)) : bool :=
  existsb (λ we, settles i a we.2) es.

(** Adapter [a] is the last one that the task awaits: when it settles
    the join resolves. *)
Definition completes (t : task) (a : adapter) : bool :=
  match status t with
  | Waiting => bool_decide (a ∈ awaiting t) && bool_decide (others a (awaiting t) = [])
  | _ => false
  end.

(** The event completes a refresh other than the [i]-th. *)
Definition completes_other (i : nat) (p : page) (e : event) : bool :=
  match e with
  | AdapterSettles j a =>
      negb (bool_decide (j = i)) &&
      match refreshes p !! j with
      | Some t => completes t a
      | None => false
      end
  | _ => false
  end.

(** No refresh other than the [i]-th completes in the course of the run. *)
Fixpoint alone (i : nat) (p : page) (es : list (world * event)) : bool :=
  match es with
  | [] => true
  | we :: es' => negb (completes_other i p we.2) && alone i (step we.1 p we.2) es'
  end.

(** While the [i]-th refresh waits, [loading] is true. *)
Definition waits_under_loading (i : nat) (p : page) : Prop :=
  ∀ t, refreshes p !! i = Some t → status t = Waiting → loading (ui p) = true.

(** ** Reading a URL back *)

(** Does the character occur in the string? *)
Fixpoint occurs (c : ascii) (s : string) : bool :=
  match s with
  | EmptyString => false
  | String d rest => Ascii.eqb d c || occurs c rest
  end.

(** The pieces of a string between the occurrences of a separator. *)
Fixpoint split_on (sep : ascii) (s : string) : list string :=
  match s with
  | EmptyString => [EmptyString]
  | String c rest =>
      if Ascii.eqb c sep then EmptyString :: split_on sep rest
      else
        match split_on sep rest with
        | piece :: pieces => String c piece :: pieces
        | [] => [String c EmptyString]
        end
  end.

(** The text before the first occurrence of a separator and the text
    after it (empty when it does not occur). *)
Fixpoint cut_at (sep : ascii) (s : string) : string * string :=
  match s with
  | EmptyString => (EmptyString, EmptyString)
  | String c rest =>
      if Ascii.eqb c sep then (EmptyString, rest)
      else (String c (cut_at sep rest).1, (cut_at sep rest).2)
  end.

(** The parameters of a URL: what follows the first question mark, cut
    at every ampersand, each piece cut at its first equals sign. *)
Definition search_params (url : string) : list (string * string) :=
  map (cut_at "=") (split_on "&" (cut_at "?" url).2).

(** The value of a hexadecimal digit character (upper case). *)
Definition hex_value (c : ascii) : N :=
  let n := N_of_ascii c in
  if (n <? 58)%N then (n - 48)%N else (n - 55)%N.

(** Percent escapes read back: [%XY] is the byte with the hexadecimal
    digits X and Y, any other character is itself. *)
Fixpoint percent_decode (s : string) : string :=
  match s with
  | EmptyString => EmptyString
  | String c rest =>
      if Ascii.eqb c "%" then
        match rest with
        | String h1 (String h2 rest') =>
            String (ascii_of_N (16 * hex_value h1 + hex_value h2)) (percent_decode rest')
        | _ => String c (percent_decode rest)
        end
      else String c (percent_decode rest)
  end.

(** ** The earlier page: events of its playback

    In the earlier copy of the page the audio element is rendered for
    the current track only (its lines 270-279), so its [onPlay] and
    [onPause] handlers, which set [isPlaying], can fire only while a
    track is current. *)
Inductive legacy_event : Type :=
| LegacyToggle (trackId : string)
| LegacyAudioPlay
| LegacyAudioPause.

Definition legacy_step (p : Legacy.playback) (e : legacy_event) : Legacy.playback :=
  match e with
  | LegacyToggle x => Legacy.playTrack x p
  | LegacyAudioPlay =>
      match Legacy.currentTrack p with
      | Some _ => {| Legacy.currentTrack := Legacy.currentTrack p; Legacy.isPlaying := true |}
      | None => p
      end
  | LegacyAudioPause =>
      match Legacy.currentTrack p with
      | Some _ => {| Legacy.currentTrack := Legacy.currentTrack p; Legacy.isPlaying := false |}
      | None => p
      end
  end.

Definition legacy_run (es : list legacy_event) : Legacy.playback :=
  foldl legacy_step Legacy.initial es.

(** [currentTrack === track.id && isPlaying]: the card shows Pause. *)
Definition legacy_reports_playing (p : Legacy.playback) (trackId : string) : bool :=
  bool_decide (Legacy.currentTrack p = Some trackId) && Legacy.isPlaying p.

(** * The video relay ([supabase/functions/youtube-search/index.ts])

    The edge function that the video adapter invokes. Its two copies in
    the repository differ in the query check, in how the upstream URL is
    put together and in the explicit status of the success answer. A
    handler is a computation that may throw and that writes the server
    console. *)

Module Relay.

(** What can be thrown inside the handler. *)
Inductive error : Type :=
| RequestNotJson        (* [req.json()] rejects *)
| DestructureNull       (* [const { query } = null] *)
| NoPrimitiveValue      (* TypeError: an object that does not convert to a string *)
| MalformedURI          (* URIError: [encodeURIComponent] on an unpaired surrogate *)
| FetchFailed           (* the upstream [fetch] rejects *)
| BodyUnreadable        (* [response.text()] or [response.json()] rejects *)
| StatusOutOfRange      (* [new Response] with a status outside 200..599 *)
| NullBodyStatus.       (* [new Response] with a body and status 204, 205 or 304 *)

Inductive log_entry : Type :=
| KeyNotFound
| UpstreamError (status : Z) (errorText : string)
| HandlerError (e : error).

Inductive result (A : Type) : Type :=
| Done (a : A)
| Raise (e : error).
Arguments Done {A} a.
Arguments Raise {A} e.

#[global] Instance result_ret : MRet result := λ A a, Done a.

#[global] Instance result_bind : MBind result := λ A B f m,
  match m with
  | Done a => f a
  | Raise e => Raise e
  end.

Definition Eff (A : Type) : Type := list log_entry → result A * list log_entry.

#[global] Instance Eff_ret : MRet Eff := λ A a log, (Done a, log).

#[global] Instance Eff_bind : MBind Eff := λ A B f m log,
  match m log with
  | (Done a, log') => f a log'
  | (Raise e, log') => (Raise e, log')
  end.

Definition throw {A : Type} (e : error) : Eff A := λ log, (Raise e, log).

(** An expression that returns or throws and writes nothing. *)
Definition lift {A : Type} (r : result A) : Eff A := λ log, (r, log).

Definition try_catch {A : Type} (body : Eff A) (handler : error → Eff A) : Eff A :=
  λ log,
  match body log with
  | (Done a, log') => (Done a, log')
  | (Raise e, log') => handler e log'
  end.

Definition console_error (entry : log_entry) : Eff unit :=
  λ log, (Done (), log ++ [entry]).

(** A string as a request body can carry it. The escapes of JSON can
    write any UTF-16 code unit, so the string need not be well formed:
    it is well-formed text, held by its UTF-8 bytes as on the page, or
    well-formed text, then a surrogate that has no partner, then the
    rest of the string. *)
Inductive js_string : Type :=
| WellFormed (s : string)
| Unpaired (before : string) (rest : js_string).

(** The values of a JSON body that are falsy, the empty string apart:
    [undefined] (no [query] property), [null], [false] and [0]. *)
Inductive falsy_value : Type := Undefined | Null | JsFalse | Zero.

(** The [query] property of the request body: a falsy value, a string,
    or a truthy value of another type with what its conversion to a
    string gives. The conversion gives nothing when it throws: an
    object with a [toString] property of its own, which in JSON data is
    no function, has no primitive value. *)
Inductive query_field : Type :=
| QueryFalsy (v : falsy_value)
| QueryString (s : js_string)
| QueryOther (text : option js_string).

(** What [req.json()] gives. *)
Inductive request_body : Type :=
| NotJson
| JsonNullBody
| JsonBody (query : query_field).

Record Request := {
  method : string;
  payload : request_body
}.

(** An upstream answer; [D] is the type of parsed JSON data. *)
Record Upstream (D : Type) := {
  status : Z;
  text : option string;
  parsed : option D
}.
Arguments status {D} _.
Arguments text {D} _.
Arguments parsed {D} _.

(** [response.ok] *)
Definition ok {D : Type} (r : Upstream D) : bool :=
  (200 <=? status r) && (status r <=? 299).

Inductive header : Type := CorsHeaders | ContentTypeJson.

Inductive response_body (D : Type) : Type :=
| PlainOk                         (* the text [ok] *)
| ErrorMessage (message : string)  (* [JSON.stringify({ error: message })] *)
| Data (d : D).                    (* [JSON.stringify(data)] *)
Arguments PlainOk {D}.
Arguments ErrorMessage {D} message.
Arguments Data {D} d.

Record Response (D : Type) := {
  code : Z;
  headers : list header;
  content : response_body D
}.
Arguments code {D} _.
Arguments headers {D} _.
Arguments content {D} _.

(** [new Response(body, { status, headers })] with a body that is not null. *)
Definition new_Response {D : Type} (body : response_body D) (st : Z) (hs : list header)
    : Eff (Response D) :=
  if (st <? 200) || (599 <? st) then throw StatusOutOfRange
  else if (st =? 204) || (st =? 205) || (st =? 304) then throw NullBodyStatus
  else mret {| code := st; headers := hs; content := body |}.

(** The string is empty. *)
Definition is_empty (s : js_string) : bool :=
  match s with
  | WellFormed t => String.eqb t EmptyString
  | Unpaired _ _ => false
  end.

(** [!query] *)
Definition falsy (q : query_field) : bool :=
  match q with
  | QueryFalsy _ => true
  | QueryString s => is_empty s
  | QueryOther _ => false
  end.

(** [typeof query !== "string"] *)
Definition not_a_string (q : query_field) : bool :=
  match q with
  | QueryString _ => false
  | QueryFalsy _ | QueryOther _ => true
  end.

(** The conversion of the query to a string, as [encodeURIComponent]
    and [URLSearchParams] apply it to what they are given. *)
Definition to_string (q : query_field) : result js_string :=
  match q with
  | QueryFalsy Undefined => Done (WellFormed "undefined")
  | QueryFalsy Null => Done (WellFormed "null")
  | QueryFalsy JsFalse => Done (WellFormed "false")
  | QueryFalsy Zero => Done (WellFormed "0")
  | QueryString s => Done s
  | QueryOther (Some t) => Done t
  | QueryOther None => Raise NoPrimitiveValue
  end.

(** [!youtubeApiKey]: not set, or set to the empty string. *)
Definition key_missing (key : option string) : bool :=
  match key with
  | None => true
  | Some k => String.eqb k EmptyString
  end.

(** [const { query } = await req.json()] *)
Definition read_query (req : Request) : Eff query_field :=
  match payload req with
  | NotJson => throw RequestNotJson
  | JsonNullBody => throw DestructureNull
  | JsonBody q => mret q
  end.

Definition await {A : Type} (promise : option A) (e : error) : Eff A :=
  match promise with
  | Some v => mret v
  | None => throw e
  end.

(** [encodeURIComponent] on a string of the request: it throws on an
    unpaired surrogate, and encodes a well-formed string as on the page. *)
Definition encode_component (t : js_string) : result string :=
  match t with
  | WellFormed s => Done (encodeURIComponent s)
  | Unpaired _ _ => Raise MalformedURI
  end.

(** U+FFFD, the replacement character, in UTF-8. *)
Definition replacement_character : string :=
  String (ascii_of_N 239) (String (ascii_of_N 191) (String (ascii_of_N 189) EmptyString)).

(** The conversion to a scalar value string that [URLSearchParams]
    applies: the replacement character in the place of every unpaired
    surrogate. *)
Fixpoint to_USVString (t : js_string) : string :=
  match t with
  | WellFormed s => s
  | Unpaired before rest => before +:+ replacement_character +:+ to_USVString rest
  end.

(** The serializer of [URLSearchParams]: letters, digits and [* - . _]
    stay, a space becomes [+], every other byte is written [%XX]. *)
Definition form_keeps (c : ascii) : bool :=
  let n := N_of_ascii c in
  ((65 <=? n) && (n <=? 90))%N || ((97 <=? n) && (n <=? 122))%N ||
  ((48 <=? n) && (n <=? 57))%N ||
  existsb (Ascii.eqb c) ["*"; "-"; "."; "_"]%char.

Fixpoint form_urlencode (s : string) : string :=
  match s with
  | EmptyString => EmptyString
  | String c rest =>
      if form_keeps c then String c (form_urlencode rest)
      else if Ascii.eqb c " " then String "+" (form_urlencode rest)
      else percent_encode c +:+ form_urlencode rest
  end.

(** The upstream URL of the first copy (its line 36); its evaluation
    throws when [encodeURIComponent(query)] does. *)
Definition first_url (q : query_field) (key : string) : result string :=
  text ← to_string q;
  component ← encode_component text;
  mret ("https://www.googleapis.com/youtube/v3/search?part=snippet&q="
          +:+ component
          +:+ "&type=video&maxResults=6&key=" +:+ key).

(** The upstream URL of the second copy (its lines 107-115). *)
Definition second_url (q : query_field) (key : string) : result string :=
  text ← to_string q;
  mret ("https://www.googleapis.com/youtube/v3/search?"
          +:+ "part=snippet&q=" +:+ form_urlencode (to_USVString text)
          +:+ "&type=video&maxResults=6&key=" +:+ form_urlencode key).

Definition json_headers : list header := [CorsHeaders; ContentTypeJson].

Section Handlers.

Context {D : Type}.
Variable upstream : string → option (Upstream D).
Variable api_key : option string.

(** What follows the two checks, in both copies: the upstream call and
    the answer made of it. *)
Definition forward (url : string) : Eff (Response D) :=
  response ← await (upstream url) FetchFailed;
  if negb (ok response) then
    errorText ← await (text response) BodyUnreadable;
    console_error (UpstreamError (status response) errorText);;
    new_Response (ErrorMessage "Failed to fetch YouTube videos") (status response) json_headers
  else
    data ← await (parsed response) BodyUnreadable;
    new_Response (Data data) 200 json_headers.

Definition on_error (e : error) : Eff (Response D) :=
  console_error (HandlerError e);;
  new_Response (ErrorMessage "Internal server error") 500 json_headers.

(** The first copy (lines 4-70 of the file). *)
Definition first_handler (req : Request) : Eff (Response D) :=
  if String.eqb (method req) "OPTIONS" then new_Response PlainOk 200 [CorsHeaders]
  else
    try_catch
      (query ← read_query req;
       if falsy query then
         new_Response (ErrorMessage "Query parameter is required") 400 json_headers
       else if key_missing api_key then
         console_error KeyNotFound;;
         new_Response (ErrorMessage "YouTube API key not configured") 500 json_headers
       else
         url ← lift (first_url query (default EmptyString api_key));
         forward url)
      on_error.

(** The second copy (lines 75-149 of the file). *)
Definition second_handler (req : Request) : Eff (Response D) :=
  if String.eqb (method req) "OPTIONS" then new_Response PlainOk 200 [CorsHeaders]
  else
    try_catch
      (query ← read_query req;
       if falsy query || not_a_string query then
         new_Response (ErrorMessage "Query parameter is required") 400 json_headers
       else if key_missing api_key then
         console_error KeyNotFound;;
         new_Response (ErrorMessage "YouTube API key not configured") 500 json_headers
       else
         url ← lift (second_url query (default EmptyString api_key));
         forward url)
      on_error.

End Handlers.

End Relay.

(** The two copies of the relay side by side. *)
Inductive relay_copy : Type := FirstCopy | SecondCopy.

Definition relay_handler {D : Type} (c : relay_copy)
    (upstream : string → option (Relay.Upstream D)) (api_key : option string)
    (req : Relay.Request) : Relay.Eff (Relay.Response D) :=
  match c with
  | FirstCopy => Relay.first_handler upstream api_key req
  | SecondCopy => Relay.second_handler upstream api_key req
  end.

(** The upstream URL that a copy puts together, when doing so does not
    throw. *)
Definition relay_url (c : relay_copy) (q : Relay.query_field) (key : string)
    : Relay.result string :=
  match c with
  | FirstCopy => Relay.first_url q key
  | SecondCopy => Relay.second_url q key
  end.

(** The queries that a copy answers with status 400. *)
Definition relay_refuses (c : relay_copy) (q : Relay.query_field) : bool :=
  match c with
  | FirstCopy => Relay.falsy q
  | SecondCopy => Relay.falsy q || Relay.not_a_string q
  end.

(** An error answer: a status and a message, with the JSON headers. *)
Definition error_answer {D : Type} (st : Z) (message : string) : Relay.Response D :=
  {| Relay.code := st; Relay.headers := Relay.json_headers;
     Relay.content := Relay.ErrorMessage message |}.

(** What the [catch] of a copy makes of what follows its two checks: a
    result is answered as it is, an error is logged and answered 500. *)
Definition caught {D : Type} (r : Relay.result (Relay.Response D) * list Relay.log_entry)
    : Relay.result (Relay.Response D) * list Relay.log_entry :=
  match r with
  | (Relay.Done a, log') => (Relay.Done a, log')
  | (Relay.Raise e, log') =>
      (Relay.Done (error_answer 500 "Internal server error"),
       log' ++ [Relay.HandlerError e])
  end.

(** What follows the two checks of a copy, for a key that is set: the
    URL is put together and the upstream is called with it. *)
Definition calls {D : Type} (c : relay_copy)
    (upstream : string → option (Relay.Upstream D)) (q : Relay.query_field) (key : string)
    (log : list Relay.log_entry) : Relay.result (Relay.Response D) * list Relay.log_entry :=
  match relay_url c q key with
  | Relay.Done url => Relay.forward upstream url log
  | Relay.Raise e => (Relay.Raise e, log)
  end.

Definition preflight_answer {D : Type} : Relay.Response D :=
  {| Relay.code := 200; Relay.headers := [Relay.CorsHeaders]; Relay.content := Relay.PlainOk |}.

Definition post (q : Relay.query_field) : Relay.Request :=
  {| Relay.method := "POST"; Relay.payload := Relay.JsonBody q |}.

(** A query that is a well-formed string. *)
Definition text_query (s : string) : Relay.query_field :=
  Relay.QueryString (Relay.WellFormed s).

(** A query that is a truthy value of another type, with the
    well-formed text of its conversion: the number 42 with the text 42. *)
Definition value_query (text : string) : Relay.query_field :=
  Relay.QueryOther (Some (Relay.WellFormed text)).

(** The string of the JSON text ["\ud800"]: one unpaired surrogate. *)
Definition lone_surrogate : Relay.js_string :=
  Relay.Unpaired EmptyString (Relay.WellFormed EmptyString).

(** An upstream that answers every URL with the same response. *)
Definition upstream_answers {D : Type} (r : Relay.Upstream D)
    : string → option (Relay.Upstream D) := λ _, Some r.

Definition unreachable_upstream {D : Type} : string → option (Relay.Upstream D) :=
  λ _, None.

(** An upstream answer with a page of results. *)
Definition a_page_of_results : Relay.Upstream string :=
  {| Relay.status := 200; Relay.text := Some "raw"; Relay.parsed := Some "six videos" |}.

(** * The journal page (the second page of [src/unnamed/part_000],
    its lines 368-535)

    The list of journal entries with its delete button. The handlers
    are computations in a state-and-exception monad over the state of
    this page. *)

Module Journal.

Record JournalEntry := {
  id : string;
  entry_text : string;
  created_at : string
}.

(** A notification; the success one has no [variant]. *)
Record toast_message := {
  title : string;
  description : string;
  variant : option string
}.

Record state := {
  entries : list JournalEntry;
  loading : bool;
  toasts : list toast_message;
  console : list string
}.

(** The [useState] initial values. *)
Definition initial_state : state :=
  {| entries := []; loading := true; toasts := []; console := [] |}.

Inductive error : Type :=
| Rejected                     (* the promise of the query rejects *)
| QueryError (message : string).  (* the [error] of the answer *)

Inductive result (A : Type) : Type :=
| Done (a : A)
| Raise (e : error).
Arguments Done {A} a.
Arguments Raise {A} e.

Definition Eff (A : Type) : Type := state → result A * state.

#[global] Instance Eff_ret : MRet Eff := λ A a st, (Done a, st).

#[global] Instance Eff_bind : MBind Eff := λ A B f m st,
  match m st with
  | (Done a, st') => f a st'
  | (Raise e, st') => (Raise e, st')
  end.

Definition throw {A : Type} (e : error) : Eff A := λ st, (Raise e, st).

Definition try_catch {A : Type} (body : Eff A) (handler : error → Eff A) : Eff A :=
  λ st,
  match body st with
  | (Done a, st') => (Done a, st')
  | (Raise e, st') => handler e st'
  end.

(** [try { body } finally { after }]: [after] runs whatever [body] did. *)
Definition try_finally {A : Type} (body : Eff A) (after : Eff unit) : Eff A :=
  λ st,
  match body st with
  | (r, st') =>
      match after st' with
      | (Done _, st'') => (r, st'')
      | (Raise e, st'') => (Raise e, st'')
      end
  end.

Definition await {A : Type} (promise : option A) : Eff A :=
  match promise with
  | Some v => mret v
  | None => throw Rejected
  end.

(** [setEntries(prev => f(prev))]; [setEntries(v)] is the constant update. *)
Definition setEntries (f : list JournalEntry → list JournalEntry) : Eff unit := λ st,
  (Done (), {| entries := f (entries st); loading := loading st;
               toasts := toasts st; console := console st |}).

Definition setLoading (v : bool) : Eff unit := λ st,
  (Done (), {| entries := entries st; loading := v;
               toasts := toasts st; console := console st |}).

Definition toast (t : toast_message) : Eff unit := λ st,
  (Done (), {| entries := entries st; loading := loading st;
               toasts := toasts st ++ [t]; console := console st |}).

Definition console_error (line : string) : Eff unit := λ st,
  (Done (), {| entries := entries st; loading := loading st;
               toasts := toasts st; console := console st ++ [line] |}).

Definition exec {A : Type} (m : Eff A) (st : state) : state := snd (m st).
Definition outcome {A : Type} (m : Eff A) (st : state) : result A := fst (m st).

(** The [{ data, error }] pair of the select query. *)
Record SelectAnswer := {
  data : option (list JournalEntry);
  select_error : option string
}.

(** The journal table: what the select for a user id answers, and the
    [error] that the delete of an entry id for a user id (if any)
    answers; [None] when the promise rejects. *)
Record world := {
  select_entries : string → option SelectAnswer;
  delete_entry : string → option string → option (option string)
}.

Definition load_failed : toast_message :=
  {| title := "Error"; description := "Failed to load journal entries";
     variant := Some "destructive" |}.

Definition deleted : toast_message :=
  {| title := "Success"; description := "Journal entry deleted successfully";
     variant := None |}.

Definition delete_failed : toast_message :=
  {| title := "Error"; description := "Failed to delete journal entry";
     variant := Some "destructive" |}.

Definition fetchJournalEntries (w : world) (user : option User) : Eff unit :=
  match user with
  | None => mret ()
  | Some u =>
      try_finally
        (try_catch
           (r ← await (select_entries w (user_id u));
            match select_error r with
            | Some e => throw (QueryError e)
            | None => setEntries (λ _, default [] (data r))
            end)
           (λ error,
              console_error "Failed to fetch journal entries:";;
              toast load_failed))
        (setLoading false)
  end.

Definition deleteEntry (w : world) (user : option User) (entryId : string) : Eff unit :=
  try_catch
    (error ← await (delete_entry w entryId (user_id <$> user));
     match error with
     | Some e => throw (QueryError e)
     | None =>
         setEntries (λ prev,
           List.filter (λ entry, negb (String.eqb (id entry) entryId)) prev);;
         toast deleted
     end)
    (λ error,
       console_error "Failed to delete entry:";;
       toast delete_failed).

(** What the page shows. *)
Inductive view : Type :=
| LoadingScreen                 (* the line about loading the entries *)
| NoEntriesYet                  (* the card that invites to a first entry *)
| EntryCards (cards : list JournalEntry) (total : nat).  (* the cards and the total line *)

Definition render (st : state) : view :=
  if loading st then LoadingScreen
  else if (length (entries st) =? 0)%nat then NoEntriesYet
  else EntryCards (entries st) (length (entries st)).

End Journal.

(** Journal tables with fixed answers. *)
Definition journal_deletes : Journal.world :=
  {| Journal.select_entries := λ _, None;
     Journal.delete_entry := λ _ _, Some None |}.

Definition journal_offline : Journal.world :=
  {| Journal.select_entries := λ _, None;
     Journal.delete_entry := λ _ _, None |}.

Definition an_entry (name : string) : Journal.JournalEntry :=
  {| Journal.id := name; Journal.entry_text := name; Journal.created_at := "2024-01-01" |}.

Definition journal_with (l : list Journal.JournalEntry) : Journal.state :=
  {| Journal.entries := l; Journal.loading := false;
     Journal.toasts := []; Journal.console := [] |}.

(** * Properties *)

(** ** Sanity checks of the embedding *)

Example encodeURIComponent_query :
  encodeURIComponent "chill peaceful calm" = "chill%20peaceful%20calm".
Proof. reflexivity. Qed.

Example encodeURIComponent_reserved :
  encodeURIComponent "a&b=c/d?e" = "a%26b%3Dc%2Fd%3Fe".
Proof. reflexivity. Qed.

Example getMoodBasedContent_2 :
  getMoodBasedContent 2 =
    {| musicQuery := "relaxing meditation ambient";
       podcastQuery := "mental health therapy mindfulness";
       bookQuery := "self help depression anxiety" |}.
Proof. reflexivity. Qed.

(** ** Helper facts on the adapters *)

Ltac unfold_js :=
  unfold outcome, exec, run_adapter, fetchAudiusTracks, fetchYouTubeVideos,
    fetchBooks, fetchUserMood, try_catch, await, response_json, get_field,
    array_filter, or_empty, as_stored, truthy, throw, mbind, mret, JS_bind,
    JS_ret, setTracks, setVideos, setBooks, setLoading, setCurrentMood, toast,
    console_error in *.

(** An adapter returns normally whatever its provider answers, and
    touches neither the mood, the loading flag, the playback set nor the
    selection. *)
Lemma run_adapter_normal (w : world) (c : QueryBundle) (a : adapter) (st : state) :
  ∃ st', run_adapter w c a st = (Normal (), st') ∧
    currentMood st' = currentMood st ∧ loading st' = loading st ∧
    playingTracks st' = playingTracks st ∧ selectedBook st' = selectedBook st.
Proof.
  destruct a; unfold run_adapter.
  - unfold_js.
    destruct (audius w _) as [[[] [[|[]]|]]|]; simpl; eauto 10.
  - unfold_js.
    destruct (youtube_search w _) as [[[|[]] []]|]; simpl; eauto 10.
  - unfold_js.
    destruct (google_books w _) as [[[] [[|[]]|]]|]; simpl; eauto 10.
Qed.

(** ** The source adapters *)

(** Whatever the provider answers, at most one notification per call. *)
Lemma adapter_at_most_one_toast (w : world) (c : QueryBundle) (a : adapter) (st : state) :
  toasts (exec (run_adapter w c a) st) = toasts st ∨
  toasts (exec (run_adapter w c a) st) = toasts st ++ [failure_toast a].
Proof.
  destruct a; unfold_js.
  - destruct (audius w _) as [[[] [[|[]]|]]|]; simpl; auto.
  - destruct (youtube_search w _) as [[[|[]] []]|]; simpl; auto.
  - destruct (google_books w _) as [[[] [[|[]]|]]|]; simpl; auto.
Qed.

(** On a failure of the provider call the three lists stay as they were. *)
Lemma adapter_failure_keeps_lists
    (w : world) (c : QueryBundle) (a : adapter) (st : state) (f : failure) :
  adapter_failure w c a = Some f →
  tracks (exec (run_adapter w c a) st) = tracks st ∧
  videos (exec (run_adapter w c a) st) = videos st ∧
  books (exec (run_adapter w c a) st) = books st.
Proof.
  destruct a; unfold adapter_failure, fetch_failure, invoke_failure; unfold_js.
  - destruct (audius w _) as [[[] [[|[]]|]]|]; simpl; intros Hf; by simplify_eq.
  - destruct (youtube_search w _) as [[[|[]] []]|]; simpl; intros Hf; by simplify_eq.
  - destruct (google_books w _) as [[[] [[|[]]|]]|]; simpl; intros Hf; by simplify_eq.
Qed.

(** C1 (amended). Each source adapter's fetch never throws to its caller
    and emits at most one failure notification per call. On a failure of
    the provider call (transport error, non-success status, body that is
    not JSON) the update is skipped: the track, video and book lists all
    stay as they were, they are not replaced by the empty list. On a
    transport error or a body that is not JSON, and on every error that
    the video relay call answers, exactly one notification is emitted. *)
Theorem adapter_failure_skips_update
    (w : world) (c : QueryBundle) (a : adapter) (st : state) :
  outcome (run_adapter w c a) st = Normal () ∧
  (toasts (exec (run_adapter w c a) st) = toasts st ∨
   toasts (exec (run_adapter w c a) st) = toasts st ++ [failure_toast a]) ∧
  ∀ f : failure, adapter_failure w c a = Some f →
    tracks (exec (run_adapter w c a) st) = tracks st ∧
    videos (exec (run_adapter w c a) st) = videos st ∧
    books (exec (run_adapter w c a) st) = books st ∧
    (f ≠ BadStatus ∨ a = YouTube →
     toasts (exec (run_adapter w c a) st) = toasts st ++ [failure_toast a]).
Proof.
  split; [|split].
  - unfold outcome.
    by destruct (run_adapter_normal w c a st) as (st' & -> & _).
  - apply adapter_at_most_one_toast.
  - intros f Hf.
    destruct (adapter_failure_keeps_lists w c a st f Hf) as (Ht & Hv & Hb).
    split; [done|]. split; [done|]. split; [done|]. clear Ht Hv Hb. revert Hf.
    destruct a; unfold adapter_failure, fetch_failure, invoke_failure; unfold_js.
    + destruct (audius w _) as [[[] [[|[]]|]]|]; simpl; intros Hf;
        simplify_eq; intuition congruence.
    + destruct (youtube_search w _) as [[[|[]] []]|]; simpl; intros Hf;
        simplify_eq; intuition congruence.
    + destruct (google_books w _) as [[[] [[|[]]|]]|]; simpl; intros Hf;
        simplify_eq; intuition congruence.
Qed.

Lemma adapter_failure_skips_update_witness :
  adapter_failure offline middle_bundle Audius = Some TransportError ∧
  outcome (run_adapter offline middle_bundle Audius) one_track_state = Normal () ∧
  tracks (exec (run_adapter offline middle_bundle Audius) one_track_state)
    = [a_track "t1" 200] ∧
  toasts (exec (run_adapter offline middle_bundle Audius) one_track_state)
    = [music_toast].
Proof.
  pose proof (adapter_failure_skips_update offline middle_bundle Audius
    one_track_state) as (Hn & _ & Hf).
  destruct (Hf TransportError eq_refl) as (Ht & _ & _ & Hone).
  split; [reflexivity|]. split; [exact Hn|]. split; [exact Ht|].
  apply Hone. left. discriminate.
Defined.

(** C1 as stated fails: with one track on the page, a rejected track
    search leaves that track in place instead of emptying the list, and
    a non-success status of the book search emits no notification. *)
Lemma adapter_failure_not_emptied :
  (adapter_failure offline middle_bundle Audius = Some TransportError ∧
   tracks (exec (fetchAudiusTracks offline "chill peaceful calm") one_track_state)
     = [a_track "t1" 200]) ∧
  (adapter_failure books_down middle_bundle GoogleBooks = Some BadStatus ∧
   toasts (exec (fetchBooks books_down "psychology happiness mindfulness") one_track_state)
     = []).
Proof. repeat split. Qed.

(** What the track and book adapters do on a non-success status: nothing
    at all, not even a notification. *)
Lemma fetch_bad_status_is_silent (w : world) (c : QueryBundle) (a : adapter) (st : state) :
  a ≠ YouTube → adapter_failure w c a = Some BadStatus →
  exec (run_adapter w c a) st = st.
Proof.
  destruct a; [|congruence|]; intros _;
    unfold adapter_failure, fetch_failure; unfold_js.
  - destruct (audius w _) as [[[] [[|[]]|]]|]; simpl; intros; simplify_eq;
      by destruct st.
  - destruct (google_books w _) as [[[] [[|[]]|]]|]; simpl; intros; simplify_eq;
      by destruct st.
Qed.

(** C8 (amended). The video and the book adapter store the item list of
    a successful provider answer whole, without truncating it: the list
    on the page has as many entries as the answer, hence at most 6 when
    the answer has at most 6. The cap is left to the provider: the book
    request asks it for [maxResults=6]. *)
Theorem video_and_book_lists_as_answered
    (w : world) (query : string) (st : state)
    (vs : list YouTubeVideo) (bs : list Book) :
  youtube_search w query = invoke_with vs →
  google_books w (books_url query) = ok_with bs →
  videos (exec (fetchYouTubeVideos w query) st) = IsArray vs ∧
  books (exec (fetchBooks w query) st) = IsArray bs ∧
  ((length vs ≤ 6)%nat → ∀ l, videos (exec (fetchYouTubeVideos w query) st) = IsArray l →
     (length l ≤ 6)%nat) ∧
  ((length bs ≤ 6)%nat → ∀ l, books (exec (fetchBooks w query) st) = IsArray l →
     (length l ≤ 6)%nat) ∧
  ∃ prefix, books_url query = prefix +:+ "&maxResults=6".
Proof.
  intros Hv Hb. unfold_js. rewrite Hv, Hb. simpl.
  repeat split; try (intros; simplify_eq; done).
  by exists ("https://www.googleapis.com/books/v1/volumes?q=" +:+ encodeURIComponent query).
Qed.

Lemma video_and_book_lists_as_answered_witness :
  videos (exec (fetchYouTubeVideos small_answers "q") initial_state)
    = IsArray [a_video "v1"] ∧
  books (exec (fetchBooks small_answers "q") initial_state)
    = IsArray [a_book "b1"; a_book "b2"].
Proof.
  pose proof (video_and_book_lists_as_answered small_answers "q" initial_state
    [a_video "v1"] [a_book "b1"; a_book "b2"] eq_refl eq_refl) as (Hv & Hb & _).
  split; [exact Hv | exact Hb].
Defined.

(** C8 as stated fails: a provider answer of seven items puts seven
    entries on the page, for the books and for the videos. *)
Lemma seven_items_are_kept :
  books (exec (fetchBooks generous "self help depression anxiety") initial_state)
    = IsArray seven_books ∧
  videos (exec (fetchYouTubeVideos generous "mental health therapy mindfulness")
    initial_state) = IsArray seven_videos ∧
  length seven_books = 7%nat ∧ length seven_videos = 7%nat.
Proof. repeat split. Qed.

(** ** The track filter *)

Lemma filter_sublist_of {A : Type} (p : A → bool) (l : list A) :
  List.filter p l `sublist_of` l.
Proof.
  induction l as [|x l IH]; simpl; [constructor|].
  destruct (p x); by constructor.
Qed.

Lemma filter_greatest {A : Type} (p : A → bool) (l k : list A) :
  k `sublist_of` l → Forall (λ x, p x = true) k → k `sublist_of` List.filter p l.
Proof.
  induction 1 as [|x k l Hkl IH|x k l Hkl IH]; intros Hall; simpl.
  - constructor.
  - inversion Hall as [|? ? Hx Hk]; subst. rewrite Hx. constructor. by apply IH.
  - destruct (p x); [constructor|]; by apply IH.
Qed.

Lemma slice_0_length {A : Type} (n : nat) (l : list A) :
  slice 0 n l = take n l ∧ (length (slice 0 n l) ≤ n)%nat.
Proof.
  unfold slice. rewrite drop_0, Nat.sub_0_r. split; [done|].
  rewrite length_take. lia.
Qed.

(** C3. For every track list that the provider returns, the adapter's
    filtered list holds exactly the tracks longer than 30 seconds (none
    of 30 seconds or less), in the provider's order, and the list put on
    the page is its first 6 entries at most. *)
Theorem fetchAudiusTracks_filters
    (w : world) (query : string) (st : state) (items : list Track) :
  audius w (audius_url query) = ok_with items →
  let fullTracks := List.filter (λ track, duration track >? 30) items in
  let st' := exec (fetchAudiusTracks w query) st in
  (∀ t, t ∈ fullTracks ↔ t ∈ items ∧ duration t > 30) ∧
  fullTracks `sublist_of` items ∧
  (∀ k, k `sublist_of` items → Forall (λ t, duration t > 30) k →
        k `sublist_of` fullTracks) ∧
  tracks st' = take 6 fullTracks ∧
  (length (tracks st') ≤ 6)%nat ∧
  tracks st' `sublist_of` items ∧
  toasts st' = toasts st.
Proof.
  intros Hw fullTracks st'.
  assert (Hst : tracks st' = take 6 fullTracks ∧ toasts st' = toasts st).
  { subst st'. unfold_js. rewrite Hw. simpl.
    by destruct (slice_0_length 6 fullTracks) as [-> _]. }
  destruct Hst as [Ht Hn].
  split; [|split; [|split; [|split; [|split; [|split]]]]].
  - intros t. unfold fullTracks. rewrite !list_elem_of_In, filter_In.
    rewrite Z.gtb_ltb, Z.ltb_lt. intuition lia.
  - apply filter_sublist_of.
  - intros k Hk Hall. apply filter_greatest; [done|].
    eapply Forall_impl; [exact Hall|]. simpl. intros t Hd.
    rewrite Z.gtb_ltb, Z.ltb_lt. lia.
  - done.
  - rewrite Ht, length_take. lia.
  - rewrite Ht. etrans; [apply sublist_take | apply filter_sublist_of].
  - done.
Qed.

Lemma fetchAudiusTracks_filters_witness :
  tracks (exec (fetchAudiusTracks audius_up "chill peaceful calm") initial_state)
    = [a_track "song" 45; a_track "mix" 200].
Proof.
  pose proof (fetchAudiusTracks_filters audius_up "chill peaceful calm"
    initial_state three_tracks eq_refl) as (_ & _ & _ & Ht & _).
  exact Ht.
Defined.

(** The boundary: a track of exactly 30 seconds is dropped, one of 31 kept. *)
Example thirty_seconds_is_dropped :
  tracks (exec (fetchAudiusTracks
    (with_audius (ok_with [a_track "edge" 30; a_track "over" 31]) offline)
    "q") initial_state) = [a_track "over" 31].
Proof. reflexivity. Qed.

(** ** The refresh orchestrator *)

(** One adapter of a waiting task settles: the join resolves, and
    [loading] is cleared, exactly when it was the last one awaited;
    otherwise [loading] is left as it is. *)
Lemma settle_waiting (w : world) (a : adapter) (st : state) (t : task) :
  status t = Waiting → a ∈ awaiting t →
  ∃ st', run_adapter w (content t) a st = (Normal (), st') ∧
    loading st' = loading st ∧ currentMood st' = currentMood st ∧
    settle w a (st, t) =
      match others a (awaiting t) with
      | [] => (exec (setLoading false) st',
               {| content := content t; awaiting := []; status := Fulfilled |})
      | b :: l => (st', {| content := content t; awaiting := b :: l; status := Waiting |})
      end.
Proof.
  intros Hw Hin. unfold settle.
  destruct (decide (a ∈ awaiting t)) as [_|]; [|done].
  destruct (run_adapter_normal w (content t) a st) as (st' & -> & Hm & Hl & _).
  exists st'. rewrite Hw. fold (others a (awaiting t)).
  by destruct (others a (awaiting t)).
Qed.

Ltac settle_next st' Hl :=
  match goal with
  | |- context [settle ?w ?a (?st, ?t)] =>
      let Hs := fresh "Hs" in
      let rest := eval vm_compute in (others a (awaiting t)) in
      destruct (settle_waiting w a st t) as (st' & _ & Hl & _ & Hs);
      [reflexivity | simpl; set_solver
      | change (others a (awaiting t)) with rest in Hs;
        cbv beta iota in Hs; rewrite Hs; clear Hs]
  end.

Lemma settle_in_order (w : world) (a b c : adapter) (st : state) :
  [a; b; c] ∈ permutations [Audius; YouTube; GoogleBooks] →
  let s0 := loadRecommendations_begin st in
  let s1 := settle w a s0 in
  let s2 := settle w b s1 in
  let s3 := settle w c s2 in
  (loading s0.1 = true ∧ status s0.2 = Waiting ∧ length (awaiting s0.2) = 3%nat) ∧
  (loading s1.1 = true ∧ status s1.2 = Waiting ∧ length (awaiting s1.2) = 2%nat) ∧
  (loading s2.1 = true ∧ status s2.2 = Waiting ∧ length (awaiting s2.2) = 1%nat) ∧
  (loading s3.1 = false ∧ status s3.2 = Fulfilled ∧ awaiting s3.2 = []).
Proof.
  intros Hin. vm_compute in Hin.
  repeat (apply elem_of_cons in Hin as [Hin|Hin]; [simplify_eq|]);
    [..| by apply elem_of_nil in Hin];
    unfold loadRecommendations_begin; cbn zeta;
    settle_next st1 Hl1; settle_next st2 Hl2; settle_next st3 Hl3;
    simpl in *; rewrite ?Hl2, ?Hl1; done.
Qed.

(** A refresh that runs alone, with no other turn between the turns of
    its adapters. A call of [loadRecommendations] completes without
    raising whatever the three providers answer and in whatever order
    the three adapters settle: [loading] is true once the call has
    started, stays true while fewer than three adapters have settled,
    and is false, the join being fulfilled, once the third has. The
    refresh among the other events of the page comes further down. *)
Theorem loadRecommendations_settles (w : world) (order : list adapter) (st : state) :
  order ≡ₚ [Audius; YouTube; GoogleBooks] →
  loading (loadRecommendations_begin st).1 = true ∧
  (∀ k, (k < 3)%nat →
     let s := settle_all w (take k order) (loadRecommendations_begin st) in
     loading s.1 = true ∧ status s.2 = Waiting ∧ length (awaiting s.2) = (3 - k)%nat) ∧
  let s := loadRecommendations w order st in
  loading s.1 = false ∧ status s.2 = Fulfilled ∧ awaiting s.2 = [].
Proof.
  intros Hperm.
  assert (Hlen : length order = 3%nat) by by rewrite Hperm.
  destruct order as [|a [|b [|c [|]]]]; try discriminate.
  symmetry in Hperm. apply permutations_Permutation in Hperm.
  apply (settle_in_order w a b c st) in Hperm. cbn zeta in Hperm.
  destruct Hperm as (H0 & H1 & H2 & H3).
  split; [apply H0|]. split.
  - intros k Hk. destruct k as [|[|[|k]]]; [exact H0|exact H1|exact H2|lia].
  - exact H3.
Qed.

Lemma loadRecommendations_settles_witness :
  loading (loadRecommendations partly_down [GoogleBooks; Audius; YouTube] initial_state).1
    = false ∧
  status (loadRecommendations partly_down [GoogleBooks; Audius; YouTube] initial_state).2
    = Fulfilled.
Proof.
  assert (Hperm : [GoogleBooks; Audius; YouTube] ≡ₚ [Audius; YouTube; GoogleBooks]).
  { symmetry. apply permutations_Permutation. vm_compute. set_solver. }
  pose proof (loadRecommendations_settles partly_down [GoogleBooks; Audius; YouTube]
    initial_state Hperm) as (_ & _ & Hl & Hs & _).
  split; [exact Hl | exact Hs].
Defined.

(** The scenario of one failing adapter out of three: the video relay is
    unreachable, tracks and books arrive. *)
Example refresh_with_failing_videos :
  loadRecommendations videos_down [Audius; YouTube; GoogleBooks] initial_state =
    ({| currentMood := 5; tracks := [a_track "song" 45]; videos := IsArray [];
        books := IsArray [a_book "b1"]; loading := false; playingTracks := ∅;
        selectedBook := None; toasts := [podcast_toast];
        console := ["Failed to fetch YouTube videos:"] |},
     {| content := middle_bundle; awaiting := []; status := Fulfilled |}).
Proof. reflexivity. Qed.

(** ** The mood classifier *)

(** C4. For every integer mood from 1 to 10 the classifier returns one
    of the three fixed bundles, by the bands [mood <= 3], [4 <= mood <= 6]
    and [mood >= 7]; the three bundles differ, so it is exactly one; and
    mood 2 gives the bundle of the low band. *)
Theorem getMoodBasedContent_bands (mood : Z) :
  1 ≤ mood ≤ 10 →
  (mood ≤ 3 → getMoodBasedContent mood = low_bundle) ∧
  (4 ≤ mood ≤ 6 → getMoodBasedContent mood = middle_bundle) ∧
  (7 ≤ mood → getMoodBasedContent mood = high_bundle) ∧
  (getMoodBasedContent mood = low_bundle ∨
   getMoodBasedContent mood = middle_bundle ∨
   getMoodBasedContent mood = high_bundle) ∧
  low_bundle ≠ middle_bundle ∧ middle_bundle ≠ high_bundle ∧ low_bundle ≠ high_bundle ∧
  getMoodBasedContent 2 =
    {| musicQuery := "relaxing meditation ambient";
       podcastQuery := "mental health therapy mindfulness";
       bookQuery := "self help depression anxiety" |}.
Proof.
  intros Hrange. unfold getMoodBasedContent.
  repeat match goal with
  | |- context [?a <=? ?b] => destruct (Z.leb_spec a b)
  end;
  (split; [intros; first [reflexivity | lia]|]);
  (split; [intros; first [reflexivity | lia]|]);
  (split; [intros; first [reflexivity | lia]|]);
  (split; [auto|]); repeat split; discriminate.
Qed.

Lemma getMoodBasedContent_bands_witness :
  getMoodBasedContent 5 = middle_bundle ∧ getMoodBasedContent 2 = low_bundle
  ∧ getMoodBasedContent 7 = high_bundle.
Proof.
  pose proof (getMoodBasedContent_bands 5 ltac:(lia)) as (_ & H5 & _).
  pose proof (getMoodBasedContent_bands 2 ltac:(lia)) as (H2 & _).
  pose proof (getMoodBasedContent_bands 7 ltac:(lia)) as (_ & _ & H7 & _).
  split; [apply H5; lia|]. split; [apply H2; lia | apply H7; lia].
Defined.

(** ** The mood store and the first refresh *)

Lemma fetchUserMood_frame (w : world) (user : option User) (st : state) :
  let st' := exec (fetchUserMood w user) st in
  tracks st' = tracks st ∧ videos st' = videos st ∧ books st' = books st ∧
  loading st' = loading st.
Proof.
  destruct user as [u|]; unfold_js; [|done].
  destruct (moodTable w _) as [[[[|row l]|] []]|]; simpl; done.
Qed.

Lemma fetchUserMood_no_reading (w : world) (u : User) (st : state) :
  no_reading (moodTable w (user_id u)) = true →
  currentMood (exec (fetchUserMood w (Some u)) st) = currentMood st.
Proof.
  unfold no_reading; unfold_js.
  destruct (moodTable w _) as [[[[|row l]|] []]|]; simpl; try done.
Qed.

Lemma settle_frame (w : world) (a : adapter) (st : state) (t : task) :
  let s := settle w a (st, t) in
  currentMood s.1 = currentMood st ∧ content s.2 = content t.
Proof.
  unfold settle. destruct (decide (a ∈ awaiting t)); [|done].
  destruct (run_adapter_normal w (content t) a st) as (st' & -> & Hm & _).
  destruct (status t); [destruct (List.filter _ _)|..]; simpl; done.
Qed.

Lemma playback_selection_frame (st : state) :
  (∀ e, let st' := exec (playback_handler e) st in
     currentMood st' = currentMood st ∧ tracks st' = tracks st ∧
     videos st' = videos st ∧ books st' = books st ∧ loading st' = loading st) ∧
  (∀ e, let st' := exec (selection_handler e) st in
     currentMood st' = currentMood st ∧ tracks st' = tracks st ∧
     videos st' = videos st ∧ books st' = books st ∧ loading st' = loading st).
Proof. split; intros []; done. Qed.

Lemma step_defaulted (w : world) (e : event) (p : page) :
  store_silent (w, e) = true → is_manual_refresh e = false →
  defaulted p → defaulted (step w p e).
Proof.
  intros Hs Hm (Hmood & t & Ht & Hc). destruct e as [user|i a| |e|e]; simpl in *.
  - assert (Hsame : currentMood (exec (fetchUserMood w user) (ui p)) = currentMood (ui p)).
    { destruct user as [u|]; [by apply fetchUserMood_no_reading|done]. }
    rewrite bool_decide_eq_true_2 by done.
    split; simpl; [congruence | eauto].
  - rewrite Ht. destruct i as [|i]; simpl; [|by split; eauto].
    pose proof (settle_frame w a (ui p) t) as [Hm' Hc'].
    destruct (settle w a (ui p, t)) as [st' t']; simpl in *.
    split; simpl; [congruence|]. exists t'. split; [done | congruence].
  - done.
  - destruct (playback_selection_frame (ui p)) as [Hp _].
    destruct (Hp e) as (Hm' & _). split; simpl; [congruence | eauto].
  - destruct (playback_selection_frame (ui p)) as [_ Hp].
    destruct (Hp e) as (Hm' & _). split; simpl; [congruence | eauto].
Qed.

(** C7. When the mood store never yields a reading, the mood in effect
    is the default 5, the query bundle is that of the 4-6 band, and one
    refresh, started at mount without waiting for the store, is the only
    one that starts (manual refreshes apart). *)
Theorem no_reading_defaults_to_5 (es : list (world * event)) :
  forallb store_silent es = true →
  forallb (λ we, negb (is_manual_refresh we.2)) es = true →
  (∃ t, refreshes mount = [t] ∧ content t = middle_bundle ∧ status t = Waiting) ∧
  let p := run mount es in
  currentMood (ui p) = 5 ∧
  getMoodBasedContent (currentMood (ui p)) = middle_bundle ∧
  (4 ≤ currentMood (ui p) ≤ 6) ∧
  ∃ t, refreshes p = [t] ∧ content t = middle_bundle.
Proof.
  intros Hs Hm. split; [by eexists|].
  assert (Hd : defaulted (run mount es)).
  { unfold run. assert (H0 : defaulted mount) by (split; [done | by eexists]).
    revert Hs Hm H0. generalize mount.
    induction es as [|[w e] es IH]; intros p Hs Hm H0; simpl in *; [done|].
    apply andb_prop in Hs as [Hs1 Hs2]. apply andb_prop in Hm as [Hm1 Hm2].
    apply IH; [done..|]. apply step_defaulted; [done| |done].
    by destruct (is_manual_refresh e). }
  destruct Hd as (Hmood & t & Ht & Hc). cbn zeta. rewrite Hmood.
  repeat split; [lia..|]. eauto.
Qed.

Lemma no_reading_defaults_to_5_witness :
  currentMood (ui (run mount [(no_mood_yet, MoodStoreSettles the_user);
                             (no_mood_yet, AdapterSettles 0 Audius)])) = 5 ∧
  length (refreshes (run mount [(no_mood_yet, MoodStoreSettles the_user);
                                (no_mood_yet, AdapterSettles 0 Audius)])) = 1%nat.
Proof.
  pose proof (no_reading_defaults_to_5
    [(no_mood_yet, MoodStoreSettles the_user); (no_mood_yet, AdapterSettles 0 Audius)]
    eq_refl eq_refl) as (_ & Hm & _ & _ & t & Ht & _).
  split; [exact Hm|]. cbn zeta in Ht. by rewrite Ht.
Defined.

(** A reading that is there does change the mood and starts a second
    refresh, with the bundle of its band. *)
Example reading_of_8_refreshes_again :
  currentMood (ui (run mount
    [(with_moods (Some {| rows := Some [{| mood_value := 8 |}]; query_error := None |})
        offline, MoodStoreSettles the_user)])) = 8 ∧
  map content (refreshes (run mount
    [(with_moods (Some {| rows := Some [{| mood_value := 8 |}]; query_error := None |})
        offline, MoodStoreSettles the_user)])) = [middle_bundle; high_bundle].
Proof. split; reflexivity. Qed.

(** ** The refresh on the page *)

Lemma filter_filter_and {A : Type} (p q : A → bool) (l : list A) :
  List.filter p (List.filter q l) = List.filter (λ x, q x && p x) l.
Proof.
  induction l as [|x l IH]; simpl; [done|].
  destruct (q x); simpl; [destruct (p x)|]; by rewrite IH.
Qed.

Lemma filter_all {A : Type} (p : A → bool) (l : list A) :
  (∀ x, x ∈ l → p x = true) → List.filter p l = l.
Proof.
  induction l as [|x l IH]; intros Hall; simpl; [done|].
  rewrite (Hall x) by set_solver. f_equal. apply IH. intros y Hy. apply Hall. set_solver.
Qed.

(** What the turn of an adapter does to [loading]: it clears it when the
    adapter is the last one awaited by a waiting task, and leaves it as
    it is otherwise; a task that waits afterwards waited before. *)
Lemma settle_loading (w : world) (a : adapter) (st : state) (t : task) :
  loading (settle w a (st, t)).1 = (if completes t a then false else loading st) ∧
  (status (settle w a (st, t)).2 = Waiting → status t = Waiting ∧ completes t a = false).
Proof.
  unfold settle, completes. fold (others a (awaiting t)).
  destruct (decide (a ∈ awaiting t)) as [Hin|Hin].
  - destruct (run_adapter_normal w (content t) a st) as (st' & -> & _ & Hl & _).
    rewrite (bool_decide_eq_true_2 _ Hin).
    destruct (status t); [|simpl; split; [done|discriminate]..].
    destruct (others a (awaiting t)); simpl; split; done.
  - rewrite (bool_decide_eq_false_2 _ Hin). simpl.
    destruct (status t); split; done.
Qed.

(** What an event does to the task of a refresh on the page. *)
Lemma step_task (w : world) (e : event) (p : page) (i : nat) (t : task) :
  refreshes p !! i = Some t → status t = join_of (awaiting t) →
  ∃ t', refreshes (step w p e) !! i = Some t' ∧ content t' = content t ∧
    awaiting t' = List.filter (λ a, negb (settles i a e)) (awaiting t) ∧
    status t' = join_of (awaiting t').
Proof.
  intros Hi Hwf.
  assert (Hsame : ∀ f : adapter → bool, (∀ a, f a = true) →
    ∃ t', Some t = Some t' ∧ content t' = content t ∧
      awaiting t' = List.filter f (awaiting t) ∧ status t' = join_of (awaiting t')).
  { intros f Hf. exists t. rewrite filter_all by done. done. }
  assert (Happ : ∀ l, (refreshes p ++ l) !! i = Some t) by (intros; by apply lookup_app_l_Some).
  destruct e as [user|j a| |e|e]; simpl.
  - case_bool_decide; simpl; [rewrite Hi; by apply Hsame|].
    unfold mood_effect. simpl. case_bool_decide; simpl; [rewrite Happ|rewrite Hi]; by apply Hsame.
  - destruct (decide (j = i)) as [->|Hji].
    + rewrite Hi.
      assert (Hlt : (i < length (refreshes p))%nat) by by eapply lookup_lt_Some.
      assert (Hf : ∀ l, List.filter (λ b, negb (bool_decide (i = i) && bool_decide (b = a))) l
                        = others a l).
      { intros l. apply List.filter_ext. intros b.
        by rewrite (bool_decide_eq_true_2 (i = i)). }
      rewrite Hf.
      destruct (decide (a ∈ awaiting t)) as [Hin|Hin].
      * assert (Hw : status t = Waiting).
        { rewrite Hwf. destruct (awaiting t); [by apply elem_of_nil in Hin|done]. }
        destruct (settle_waiting w a (ui p) t Hw Hin) as (st' & _ & _ & _ & ->).
        destruct (others a (awaiting t)) as [|b l] eqn:Ho; simpl;
          rewrite list_lookup_insert_eq by done; eexists; (split; [reflexivity|]);
          simpl; done.
      * unfold settle. destruct (decide (a ∈ awaiting t)); [done|]. simpl.
        rewrite list_lookup_insert_eq by done. exists t.
        unfold others. rewrite filter_all; [done|].
        intros b Hb. apply negb_true_iff, bool_decide_eq_false_2. by intros ->.
    + assert (Hf : ∀ b, negb (bool_decide (j = i) && bool_decide (b = a)) = true).
      { intros b. by rewrite (bool_decide_eq_false_2 (j = i)). }
      destruct (refreshes p !! j) as [tj|]; [|rewrite Hi; by apply Hsame].
      destruct (settle w a (ui p, tj)) as [st' t']. simpl.
      rewrite list_lookup_insert_ne by done. rewrite Hi. by apply Hsame.
  - destruct (loading (ui p)); simpl; [rewrite Hi|rewrite Happ]; by apply Hsame.
  - rewrite Hi. by apply Hsame.
  - rewrite Hi. by apply Hsame.
Qed.

(** The task of a refresh after a run: it awaits the adapters that have
    not settled yet, and its join is fulfilled when it awaits none. *)
Lemma run_task (es : list (world * event)) (p : page) (i : nat) (t : task) :
  refreshes p !! i = Some t → status t = join_of (awaiting t) →
  ∃ t', refreshes (run p es) !! i = Some t' ∧ content t' = content t ∧
    awaiting t' = List.filter (λ a, negb (settled i a es)) (awaiting t) ∧
    status t' = join_of (awaiting t').
Proof.
  revert p t. induction es as [|[w e] es IH]; intros p t Hi Hwf.
  - exists t. simpl. rewrite filter_all by done. done.
  - destruct (step_task w e p i t Hi Hwf) as (t1 & Hi1 & Hc1 & Ha1 & Hwf1).
    destruct (IH (step w p e) t1 Hi1 Hwf1) as (t' & Hi' & Hc' & Ha' & Hwf').
    exists t'. split; [exact Hi'|]. split; [congruence|]. split; [|done].
    rewrite Ha', Ha1, filter_filter_and. apply List.filter_ext.
    intros a. simpl. by rewrite negb_orb.
Qed.

(** An event that completes no other refresh leaves [loading] true
    while the refresh waits. *)
Lemma step_waits_under_loading (w : world) (e : event) (p : page) (i : nat) :
  completes_other i p e = false →
  waits_under_loading i p → waits_under_loading i (step w p e).
Proof.
  intros Hother Hinv.
  assert (Hbegin : ∀ st, waits_under_loading i
    {| ui := (loadRecommendations_begin st).1;
       refreshes := refreshes p ++ [(loadRecommendations_begin st).2] |}) by done.
  destruct e as [user|j a| |e|e]; simpl.
  - destruct (fetchUserMood_frame w user (ui p)) as (_ & _ & _ & Hl). cbv zeta in Hl.
    assert (Hkeep : waits_under_loading i
      {| ui := exec (fetchUserMood w user) (ui p); refreshes := refreshes p |}).
    { intros t Ht Hw. simpl in *. rewrite Hl. by eapply Hinv. }
    case_bool_decide; [done|]. unfold mood_effect. simpl.
    case_bool_decide; [apply Hbegin | done].
  - simpl in Hother. destruct (refreshes p !! j) as [tj|] eqn:Hj; [|done].
    pose proof (settle_loading w a (ui p) tj) as [Hl Hs].
    destruct (settle w a (ui p, tj)) as [st' t'] eqn:Es. simpl in Hl, Hs.
    assert (Hlt : (j < length (refreshes p))%nat) by by eapply lookup_lt_Some.
    intros t Ht Hw. simpl in *.
    destruct (decide (j = i)) as [->|Hji].
    + rewrite list_lookup_insert_eq in Ht by done. injection Ht as <-.
      destruct (Hs Hw) as [Hw0 Hc]. rewrite Hc in Hl. rewrite Hl. by eapply Hinv.
    + rewrite list_lookup_insert_ne in Ht by done.
      rewrite (bool_decide_eq_false_2 (j = i)) in Hother by done. simpl in Hother.
      rewrite Hother in Hl. rewrite Hl. by eapply Hinv.
  - destruct (loading (ui p)) eqn:Hl; [done | apply Hbegin].
  - destruct (playback_selection_frame (ui p)) as [Hp _].
    destruct (Hp e) as (_ & _ & _ & _ & Hl).
    intros t Ht Hw. simpl in *. rewrite Hl. by eapply Hinv.
  - destruct (playback_selection_frame (ui p)) as [_ Hp].
    destruct (Hp e) as (_ & _ & _ & _ & Hl).
    intros t Ht Hw. simpl in *. rewrite Hl. by eapply Hinv.
Qed.

Lemma run_waits_under_loading (es : list (world * event)) (p : page) (i : nat) :
  alone i p es = true → waits_under_loading i p → waits_under_loading i (run p es).
Proof.
  revert p. induction es as [|[w e] es IH]; intros p Halone Hinv; [done|].
  simpl in Halone. apply andb_prop in Halone as [Hc Halone].
  apply (IH (step w p e)); [done|].
  apply step_waits_under_loading; [by apply negb_true_iff | done].
Qed.

(** C2 (amended). A refresh is what the mood effect and the enabled
    refresh button start. It sets [loading] when it starts; after any
    run of the page, whatever the providers answer and whatever else
    happens, it awaits the adapters of its own that have not settled
    yet, it is never rejected, and it is fulfilled exactly when its
    three adapters have settled. By itself it clears [loading] once, in
    the turn of the last adapter it awaits: the turn of an earlier one
    leaves [loading] as it is, and a turn after the last one leaves the
    page as it is. [loading] is one flag for all the refreshes of the
    page: it is true for as long as the refresh waits provided that no
    other refresh completes in the meantime. *)
Theorem refresh_sets_and_clears_loading (p : page) (es : list (world * event)) :
  let i := length (refreshes p) in
  let q := run (start_refresh p) es in
  (currentMood (ui p) ≠ 0 → mood_effect p = start_refresh p) ∧
  (loading (ui p) = false → ∀ w, step w p ClickRefresh = start_refresh p) ∧
  loading (ui (start_refresh p)) = true ∧
  refreshes (start_refresh p) !! i =
    Some {| content := getMoodBasedContent (currentMood (ui p));
            awaiting := [Audius; YouTube; GoogleBooks]; status := Waiting |} ∧
  ∃ t, refreshes q !! i = Some t ∧
    content t = getMoodBasedContent (currentMood (ui p)) ∧
    awaiting t = List.filter (λ a, negb (settled i a es)) [Audius; YouTube; GoogleBooks] ∧
    status t =
      (if forallb (λ a, settled i a es) [Audius; YouTube; GoogleBooks]
       then Fulfilled else Waiting) ∧
    (alone i (start_refresh p) es = true → status t = Waiting → loading (ui q) = true) ∧
    (∀ w a, a ∈ awaiting t → others a (awaiting t) ≠ [] →
       loading (ui (step w q (AdapterSettles i a))) = loading (ui q)) ∧
    (∀ w a, awaiting t = [a] → loading (ui (step w q (AdapterSettles i a))) = false) ∧
    (∀ w a, awaiting t = [] → step w q (AdapterSettles i a) = q).
Proof.
  intros i q.
  assert (Hstart : refreshes (start_refresh p) !! i =
    Some {| content := getMoodBasedContent (currentMood (ui p));
            awaiting := [Audius; YouTube; GoogleBooks]; status := Waiting |}).
  { unfold start_refresh. simpl. by apply list_lookup_middle. }
  split; [|split; [|split; [|split]]].
  - intros Hm. unfold mood_effect. by rewrite bool_decide_eq_true_2.
  - intros Hl w. simpl. by rewrite Hl.
  - done.
  - exact Hstart.
  - destruct (run_task es (start_refresh p) i _ Hstart eq_refl)
      as (t & Hi & Hc & Ha & Hwf).
    fold q in Hi. simpl in Hc, Ha.
    assert (Hlt : (i < length (refreshes q))%nat) by by eapply lookup_lt_Some.
    exists t. split; [exact Hi|]. split; [exact Hc|]. split; [exact Ha|].
    split; [|split; [|split; [|split]]].
    + rewrite Hwf, Ha. simpl.
      by destruct (settled i Audius es), (settled i YouTube es), (settled i GoogleBooks es).
    + intros Halone Hw. by apply (run_waits_under_loading es (start_refresh p) i Halone) with t.
    + intros w a Hin Ho. simpl. rewrite Hi.
      pose proof (settle_loading w a (ui q) t) as [Hl _].
      destruct (settle w a (ui q, t)) as [st' t']. simpl in *. rewrite Hl.
      unfold completes. destruct (status t); [|done..].
      by rewrite (bool_decide_eq_false_2 (others a (awaiting t) = [])), andb_false_r.
    + intros w a Hlast. simpl. rewrite Hi.
      pose proof (settle_loading w a (ui q) t) as [Hl _].
      destruct (settle w a (ui q, t)) as [st' t']. simpl in *. rewrite Hl.
      unfold completes. rewrite Hwf, Hlast. simpl.
      rewrite bool_decide_eq_true_2 by set_solver.
      unfold others. simpl. by rewrite (bool_decide_eq_true_2 (a = a)).
    + intros w a Hnone. simpl. rewrite Hi. unfold settle. rewrite Hnone.
      destruct (decide (a ∈ [])) as [Hin|_]; [by apply elem_of_nil in Hin|].
      simpl. rewrite list_insert_id by done. by destruct q.
Qed.

Lemma refresh_sets_and_clears_loading_witness :
  loading (ui (run (start_refresh {| ui := initial_state; refreshes := [] |})
    [(partly_down, AdapterSettles 0 GoogleBooks); (partly_down, AdapterSettles 0 Audius)]))
    = true ∧
  loading (ui (run (start_refresh {| ui := initial_state; refreshes := [] |})
    [(partly_down, AdapterSettles 0 GoogleBooks); (partly_down, AdapterSettles 0 Audius);
     (partly_down, AdapterSettles 0 YouTube)])) = false.
Proof.
  destruct (refresh_sets_and_clears_loading {| ui := initial_state; refreshes := [] |}
    [(partly_down, AdapterSettles 0 GoogleBooks); (partly_down, AdapterSettles 0 Audius)])
    as (_ & _ & _ & _ & t & _ & _ & Ha & Hs & Halone & _ & Hlast & _).
  split.
  - apply Halone; [reflexivity | exact Hs].
  - apply (Hlast partly_down YouTube). exact Ha.
Defined.

(** The refresh that a mood reading starts while the refresh of the
    mount is in flight: the last adapter of the older refresh clears
    [loading] while the newer one still awaits its three adapters. *)
Lemma loading_cleared_while_refresh_waits :
  refreshes (run mount [(mood_8, MoodStoreSettles the_user);
                        (mood_8, AdapterSettles 0 Audius);
                        (mood_8, AdapterSettles 0 YouTube);
                        (mood_8, AdapterSettles 0 GoogleBooks)]) !! 1%nat =
    Some {| content := high_bundle; awaiting := [Audius; YouTube; GoogleBooks];
            status := Waiting |} ∧
  loading (ui (run mount [(mood_8, MoodStoreSettles the_user);
                          (mood_8, AdapterSettles 0 Audius);
                          (mood_8, AdapterSettles 0 YouTube);
                          (mood_8, AdapterSettles 0 GoogleBooks)])) = false ∧
  loading_banner (render (ui (run mount [(mood_8, MoodStoreSettles the_user);
                                         (mood_8, AdapterSettles 0 Audius);
                                         (mood_8, AdapterSettles 0 YouTube);
                                         (mood_8, AdapterSettles 0 GoogleBooks)]))) = false.
Proof. by vm_compute. Qed.

(** ** Playback *)

(** The earlier handler: a second toggle on the playing track gives the
    initial state back as well, and a toggle on another track replaces
    the current one. *)
Lemma Legacy_playTrack_twice_is_initial (A : string) :
  Legacy.playTrack A (Legacy.playTrack A Legacy.initial) = Legacy.initial.
Proof. unfold Legacy.playTrack; simpl. by rewrite bool_decide_eq_true_2. Qed.

Lemma Legacy_playTrack_switches (A B : string) :
  A ≠ B →
  Legacy.playTrack B (Legacy.playTrack A Legacy.initial)
    = {| Legacy.currentTrack := Some B; Legacy.isPlaying := true |}.
Proof.
  intros Hne. unfold Legacy.playTrack; simpl.
  rewrite bool_decide_eq_false_2; [done | congruence].
Qed.

Lemma playback_handler_set (e : playback_event) (st : state) :
  playingTracks (exec (playback_handler e) st) =
    match e with
    | TogglePlay x =>
        if decide (x ∈ playingTracks st) then playingTracks st ∖ {[x]}
        else playingTracks st ∪ {[x]}
    | MediaPlay x => playingTracks st ∪ {[x]}
    | MediaPause x => playingTracks st ∖ {[x]}
    end.
Proof. by destruct e. Qed.

Lemma playback_run_size (es : list playback_event) (st : state) :
  (size (playingTracks (playback_run es st)) ≤ size (playingTracks st) + length es)%nat.
Proof.
  revert st. induction es as [|e es IH]; intros st; simpl; [lia|].
  etrans; [apply IH|]. rewrite playback_handler_set.
  assert (Hadd : ∀ x, (size (playingTracks st ∪ {[x]}) ≤ S (size (playingTracks st)))%nat).
  { intros x. rewrite size_union_alt.
    assert (size ({[x]} ∖ playingTracks st) ≤ 1)%nat; [|lia].
    etrans; [apply (subseteq_size _ {[x]}); set_solver|]. by rewrite size_singleton. }
  assert (Hdel : ∀ x, (size (playingTracks st ∖ {[x]}) ≤ size (playingTracks st))%nat).
  { intros x. apply subseteq_size. set_solver. }
  destruct e as [x|x|x]; [case_decide|..];
    pose proof (Hadd x); pose proof (Hdel x); lia.
Qed.

Lemma playback_run_plays (l : list string) (st : state) :
  playingTracks (playback_run (map MediaPlay l) st) = playingTracks st ∪ list_to_set l.
Proof.
  revert st. induction l as [|x l IH]; intros st; simpl.
  - set_solver.
  - rewrite IH. simpl. set_solver.
Qed.

(** C5 (amended). A toggle-play intent or a media play or pause event on
    a track changes the playing state of that track alone; every other
    track keeps its state, so starting one track does not stop another.
    In a reachable state the number of tracks in the playing state is at
    most the number of events so far, and no smaller bound holds: every
    finite set of tracks is the playing set of some reachable state. *)
Theorem playback_changes_one_track (st : state) (e : playback_event) (es : list playback_event) :
  (∀ y, y ≠ event_track e →
     reports_playing (exec (playback_handler e) st) y = reports_playing st y) ∧
  (size (playingTracks (playback_run es initial_state)) ≤ length es)%nat ∧
  (∀ X : gset string, ∃ es', playingTracks (playback_run es' initial_state) = X).
Proof.
  split; [|split].
  - intros y Hy. unfold reports_playing. rewrite playback_handler_set.
    apply bool_decide_ext. destruct e as [x|x|x]; simpl in Hy;
      [case_decide|..]; set_solver.
  - pose proof (playback_run_size es initial_state) as Hsize.
    change (playingTracks initial_state) with (∅ : gset string) in Hsize.
    by rewrite size_empty in Hsize.
  - intros X. exists (map MediaPlay (elements X)).
    rewrite playback_run_plays. simpl. rewrite list_to_set_elements_L. set_solver.
Qed.

Lemma playback_changes_one_track_witness :
  reports_playing (exec (playback_handler (TogglePlay "B"))
    (exec (playback_handler (TogglePlay "A")) initial_state)) "A" = true.
Proof.
  pose proof (playback_changes_one_track
    (exec (playback_handler (TogglePlay "A")) initial_state) (TogglePlay "B") [])
    as [H _].
  rewrite (H "A"); [|discriminate].
  by vm_compute.
Defined.

(** C5 as stated fails: after a toggle on track A and a toggle on track
    B, both tracks are in the playing state. *)
Lemma two_tracks_playing :
  reports_playing (playback_run [TogglePlay "A"; TogglePlay "B"] initial_state) "A" = true ∧
  reports_playing (playback_run [TogglePlay "A"; TogglePlay "B"] initial_state) "B" = true ∧
  size (playingTracks (playback_run [TogglePlay "A"; TogglePlay "B"] initial_state)) = 2%nat.
Proof. by vm_compute. Qed.

(** C6 (amended). With no track playing, a toggle on track A starts A,
    and a second toggle on A gives back the very state before the first:
    the playing set is empty again, as in the initial state, and nothing
    records A as paused. A toggle on another track B while A is playing
    adds B: A and B both report a playing state. *)
Theorem toggle_twice_and_switch (A B : string) (st : state) :
  playingTracks st = ∅ → A ≠ B →
  let once := exec (playTrack A) st in
  let twice := exec (playTrack A) once in
  let switched := exec (playTrack B) once in
  playingTracks once = {[A]} ∧
  twice = st ∧ playingTracks twice = ∅ ∧ reports_playing twice A = false ∧
  playingTracks switched = {[A; B]} ∧
  reports_playing switched A = true ∧ reports_playing switched B = true.
Proof.
  intros Hidle Hne once twice switched.
  assert (H1 : playingTracks once = {[A]}).
  { subst once. rewrite (playback_handler_set (TogglePlay A)), Hidle.
    case_decide; set_solver. }
  assert (H2 : playingTracks twice = ∅).
  { subst twice. rewrite (playback_handler_set (TogglePlay A)), H1.
    case_decide; set_solver. }
  assert (H3 : playingTracks switched = {[A; B]}).
  { subst switched. rewrite (playback_handler_set (TogglePlay B)), H1.
    case_decide; set_solver. }
  split; [done|]. split; [|split; [done|]].
  - clear H1 H3. destruct st as [m ts vs bs ld pt sb tt cs].
    unfold twice, once, exec, playTrack, setPlayingTracks in *; simpl in *.
    f_equal. rewrite H2. by symmetry.
  - unfold reports_playing. rewrite H2, H3.
    split; [|split; [done|split]]; [apply bool_decide_eq_false_2
      | apply bool_decide_eq_true_2 | apply bool_decide_eq_true_2]; set_solver.
Qed.

Lemma toggle_twice_and_switch_witness :
  exec (playTrack "A") (exec (playTrack "A") initial_state) = initial_state ∧
  playingTracks (exec (playTrack "B") (exec (playTrack "A") initial_state))
    = {["A"; "B"]}.
Proof.
  pose proof (toggle_twice_and_switch "A" "B" initial_state eq_refl ltac:(discriminate))
    as (_ & H2 & _ & _ & H3 & _).
  split; [exact H2 | exact H3].
Defined.

(** C6 as stated fails: two toggles on A end in the initial, idle state,
    and a toggle on B while A plays leaves A reporting a playing state. *)
Lemma toggle_twice_is_idle_again :
  playingTracks (playback_run [TogglePlay "A"; TogglePlay "A"] initial_state)
    = playingTracks initial_state ∧
  reports_playing (playback_run [TogglePlay "A"; TogglePlay "B"] initial_state) "A" = true.
Proof. by vm_compute. Qed.

(** ** Book detail selection *)

(** C9. The selection is closed at first; a click on the card of book Y
    after one on the card of book X, from any state, leaves Y as the one
    open detail; from there a click on the overlay or on the close
    button closes it, and a click on the detail content itself does not. *)
Theorem selection_replaces_and_closes (st : state) (X Y : Book) :
  selectedBook initial_state = None ∧
  selectedBook (exec (selection_handler (ClickBookCard Y))
    (exec (selection_handler (ClickBookCard X)) st)) = Some Y ∧
  let opened := exec (selection_handler (ClickBookCard Y)) st in
  selectedBook opened = Some Y ∧
  selectedBook (exec (selection_handler ClickOverlay) opened) = None ∧
  selectedBook (exec (selection_handler ClickCloseButton) opened) = None ∧
  selectedBook (exec (selection_handler ClickDetailContent) opened) = Some Y.
Proof. repeat split. Qed.

(** ** The first render *)




(** Once the refresh has settled with an empty track list, the music
    section does show the text of no results. *)
Example no_results_after_refresh :
  music (render (loadRecommendations offline [Audius; YouTube; GoogleBooks]
    initial_state).1) = NoMusicFound ∧
  loading_banner (render (loadRecommendations offline [Audius; YouTube; GoogleBooks]
    initial_state).1) = false.
Proof. by vm_compute. Qed.

(** * Further properties of the page *)

(** ** The duration label *)

Lemma number_toString_injective (a b : Z) :
  number_toString a = number_toString b → a = b.
Proof.
  unfold number_toString. intros H.
  assert (Hnn : ∀ z, Z.to_int z ≠ Decimal.Pos Decimal.Nil ∧ Z.to_int z ≠ Decimal.Neg Decimal.Nil).
  { intros [|p|p]; simpl; split; try discriminate;
      intros [= Hp]; by apply (DecimalPos.Unsigned.to_uint_nonnil p). }
  assert (Hi : Some (Z.to_int a) = Some (Z.to_int b)).
  { rewrite <- (NilZero.isi (Z.to_int a)), <- (NilZero.isi (Z.to_int b));
      [by rewrite H | apply Hnn..]. }
  injection Hi as Hi.
  by rewrite <- (DecimalZ.of_to a), <- (DecimalZ.of_to b), Hi.
Qed.

Lemma digits_before_colon (d : Decimal.uint) (r : string) :
  before_colon (NilEmpty.string_of_uint d +:+ String ":" r) = NilEmpty.string_of_uint d ∧
  after_colon (NilEmpty.string_of_uint d +:+ String ":" r) = r.
Proof. induction d; simpl; [done|..]; destruct IHd as [-> ->]; done. Qed.

Lemma number_before_colon (n : Z) (r : string) :
  0 ≤ n →
  before_colon (number_toString n +:+ String ":" r) = number_toString n ∧
  after_colon (number_toString n +:+ String ":" r) = r.
Proof.
  intros Hn. unfold number_toString. destruct n as [|p|p]; [done| |lia].
  simpl. unfold NilZero.string_of_uint.
  destruct (Pos.to_uint p) eqn:Hp;
    [by apply DecimalPos.Unsigned.to_uint_nonnil in Hp|..];
    rewrite <- Hp; apply digits_before_colon.
Qed.

(** The seconds field of a remainder below 60: two digits that spell it. *)
Lemma seconds_field (r : Z) :
  0 ≤ r < 60 →
  ∃ d1 d2, padStart 2 "0" (number_toString r) = String d1 (String d2 EmptyString) ∧
    is_digit d1 = true ∧ is_digit d2 = true ∧
    10 * digit_value d1 + digit_value d2 = r.
Proof.
  intros Hr. assert (Hn : r = Z.of_nat (Z.to_nat r)) by lia.
  assert (Hlt : (Z.to_nat r < 60)%nat) by lia.
  rewrite Hn. generalize dependent (Z.to_nat r). intros n _ Hlt. clear Hr.
  do 60 (destruct n as [|n];
    [eexists _, _; split; [reflexivity|]; vm_compute; by repeat split|]).
  lia.
Qed.

Lemma isSafeInteger_true (n : Z) :
  - MAX_SAFE_INTEGER ≤ n ≤ MAX_SAFE_INTEGER → isSafeInteger n = true.
Proof. unfold isSafeInteger. lia. Qed.

(** The two fields of the label of a duration that is not negative. *)
Lemma formatDuration_fields (seconds : Z) :
  0 ≤ seconds ≤ MAX_SAFE_INTEGER →
  ∃ d1 d2,
    formatDuration seconds =
      Some (number_toString (seconds / 60) +:+ ":" +:+ String d1 (String d2 EmptyString)) ∧
    is_digit d1 = true ∧ is_digit d2 = true ∧
    10 * digit_value d1 + digit_value d2 = seconds mod 60.
Proof.
  intros Hs.
  assert (Hsafe : isSafeInteger seconds = true).
  { apply isSafeInteger_true. unfold MAX_SAFE_INTEGER in *. lia. }
  assert (Hrem : Z.rem seconds 60 = seconds mod 60) by (apply Z.rem_mod_nonneg; lia).
  assert (Hbound : 0 ≤ seconds mod 60 < 60) by (apply Z.mod_pos_bound; lia).
  destruct (seconds_field (Z.rem seconds 60)) as (d1 & d2 & Hpad & H1 & H2 & Hv).
  { by rewrite Hrem. }
  exists d1, d2. split; [|split; [exact H1|split; [exact H2|]]].
  - unfold formatDuration. rewrite Hsafe. cbv zeta. rewrite Hpad. reflexivity.
  - by rewrite Hv, Hrem.
Qed.

(** X1. A duration that is not negative, and a safe integer, has a
    label, and the label reads back: the text before the colon is the
    number of whole minutes (not reduced to hours), the text after it is
    exactly two digits, and 60 times the minutes plus the value of the
    two digits is the duration. *)
Theorem formatDuration_reads_back (seconds : Z) :
  0 ≤ seconds ≤ MAX_SAFE_INTEGER →
  ∃ label d1 d2,
    formatDuration seconds = Some label ∧
    before_colon label = number_toString (seconds / 60) ∧
    after_colon label = String d1 (String d2 EmptyString) ∧
    is_digit d1 = true ∧ is_digit d2 = true ∧
    10 * digit_value d1 + digit_value d2 < 60 ∧
    60 * (seconds / 60) + (10 * digit_value d1 + digit_value d2) = seconds.
Proof.
  intros Hs.
  destruct (formatDuration_fields seconds Hs) as (d1 & d2 & Hf & H1 & H2 & Hv).
  assert (Hq : 0 ≤ seconds / 60) by (apply Z.div_pos; lia).
  pose proof (number_before_colon (seconds / 60) (String d1 (String d2 EmptyString)) Hq)
    as [Hb Ha].
  change (?x +:+ ":" +:+ ?y) with (x +:+ String ":" y) in Hf.
  eexists _, d1, d2. split; [exact Hf|]. split; [exact Hb|].
  split; [exact Ha|]. split; [exact H1|]. split; [exact H2|].
  pose proof (Z.mod_pos_bound seconds 60). pose proof (Z.div_mod seconds 60). lia.
Qed.

Lemma formatDuration_reads_back_witness :
  ∃ label, formatDuration 3725 = Some label ∧
    before_colon label = "62" ∧ after_colon label = "05".
Proof.
  destruct (formatDuration_reads_back 3725 ltac:(unfold MAX_SAFE_INTEGER; lia))
    as (label & d1 & d2 & Hf & Hb & _).
  exists label. split; [exact Hf|]. split; [exact Hb|].
  injection Hf as <-. reflexivity.
Defined.

(** X2. Two different durations that are not negative, and safe
    integers, never get the same label. *)
Theorem formatDuration_injective (a b : Z) :
  0 ≤ a ≤ MAX_SAFE_INTEGER → 0 ≤ b ≤ MAX_SAFE_INTEGER → a ≠ b →
  formatDuration a ≠ formatDuration b.
Proof.
  intros Ha Hb Hne Heq. apply Hne.
  destruct (formatDuration_fields a Ha) as (a1 & a2 & Efa & _ & _ & Hva).
  destruct (formatDuration_fields b Hb) as (b1 & b2 & Efb & _ & _ & Hvb).
  rewrite Efa, Efb in Heq. injection Heq as Heq.
  assert (Hqa : 0 ≤ a / 60) by (apply Z.div_pos; lia).
  assert (Hqb : 0 ≤ b / 60) by (apply Z.div_pos; lia).
  pose proof (number_before_colon (a / 60) (String a1 (String a2 EmptyString)) Hqa)
    as [Hba Haa].
  pose proof (number_before_colon (b / 60) (String b1 (String b2 EmptyString)) Hqb)
    as [Hbb Hab].
  change (?x +:+ ":" +:+ ?y) with (x +:+ String ":" y) in Heq.
  rewrite Heq in Hba, Haa. rewrite Hbb in Hba. rewrite Hab in Haa.
  apply number_toString_injective in Hba. injection Haa as -> ->.
  pose proof (Z.div_mod a 60). pose proof (Z.div_mod b 60). lia.
Qed.

Lemma formatDuration_injective_witness :
  formatDuration 59 ≠ formatDuration 60.
Proof.
  apply (formatDuration_injective 59 60); unfold MAX_SAFE_INTEGER; lia.
Defined.

(** The label of a second count below zero: both fields carry the sign. *)
Example formatDuration_negative : formatDuration (-1) = Some "-1:-1".
Proof. reflexivity. Qed.

(** The label of the largest seconds count covered. *)
Example formatDuration_largest :
  formatDuration MAX_SAFE_INTEGER = Some "150119987579016:31".
Proof. reflexivity. Qed.

(** ** Mood display *)

(** X3. For every integer mood, inside 1..10 or not, the query bundle,
    the description and the emoji are picked by the same three bands:
    up to 3, 4 to 6, 7 and above. *)
Theorem mood_display_follows_bands (mood : Z) :
  (mood ≤ 3 ∧ getMoodBasedContent mood = low_bundle ∧
     getMoodDescription mood = "uplifting and calming" ∧ getMoodEmoji mood = "😔") ∨
  (4 ≤ mood ≤ 6 ∧ getMoodBasedContent mood = middle_bundle ∧
     getMoodDescription mood = "peaceful and balanced" ∧ getMoodEmoji mood = "🙂") ∨
  (7 ≤ mood ∧ getMoodBasedContent mood = high_bundle ∧
     getMoodDescription mood = "energizing and positive" ∧ getMoodEmoji mood = "😊").
Proof.
  unfold getMoodBasedContent, getMoodDescription, getMoodEmoji.
  destruct (Z.leb_spec mood 3); [left; repeat split; lia|].
  destruct (Z.leb_spec mood 6); [right; left | right; right]; repeat split; lia.
Qed.

(** ** The mood store read *)

(** X4. [fetchUserMood] never throws and never notifies the user; it
    touches nothing but the mood and the console. Without a user it does
    nothing at all. It changes the mood only when the query answers rows
    without an error, and then to the value of the first row. *)
Theorem fetchUserMood_effect (w : world) (user : option User) (st : state) :
  outcome (fetchUserMood w user) st = Normal () ∧
  toasts (exec (fetchUserMood w user) st) = toasts st ∧
  tracks (exec (fetchUserMood w user) st) = tracks st ∧
  videos (exec (fetchUserMood w user) st) = videos st ∧
  books (exec (fetchUserMood w user) st) = books st ∧
  loading (exec (fetchUserMood w user) st) = loading st ∧
  playingTracks (exec (fetchUserMood w user) st) = playingTracks st ∧
  selectedBook (exec (fetchUserMood w user) st) = selectedBook st ∧
  (user = None → exec (fetchUserMood w user) st = st) ∧
  (∀ u row rest, user = Some u →
     moodTable w (user_id u) = Some {| rows := Some (row :: rest); query_error := None |} →
     currentMood (exec (fetchUserMood w user) st) = mood_value row) ∧
  (∀ u, user = Some u → no_reading (moodTable w (user_id u)) = true →
     currentMood (exec (fetchUserMood w user) st) = currentMood st).
Proof.
  destruct user as [u|]; unfold_js.
  - destruct (moodTable w (user_id u)) as [[[[|row l]|] []]|] eqn:Hm; simpl;
      repeat split; try done; intros; simplify_eq;
      try match goal with H : no_reading _ = true |- _ => rewrite Hm in H end;
      done.
  - repeat split; try done.
Qed.

Lemma fetchUserMood_effect_witness :
  currentMood (exec (fetchUserMood
    (with_moods (Some {| rows := Some [{| mood_value := 8 |}; {| mood_value := 2 |}];
                         query_error := None |}) offline) the_user) initial_state) = 8.
Proof.
  pose proof (fetchUserMood_effect
    (with_moods (Some {| rows := Some [{| mood_value := 8 |}; {| mood_value := 2 |}];
                         query_error := None |}) offline) the_user initial_state)
    as (_ & _ & _ & _ & _ & _ & _ & _ & _ & Hrow & _).
  exact (Hrow {| user_id := "u1" |} {| mood_value := 8 |} [{| mood_value := 2 |}]
    eq_refl eq_refl).
Defined.

(** The first row of an answer without error becomes the mood. *)
Lemma fetchUserMood_reading
    (w : world) (u : User) (st : state) (row : MoodRow) (rest : list MoodRow) :
  moodTable w (user_id u) = Some {| rows := Some (row :: rest); query_error := None |} →
  currentMood (exec (fetchUserMood w (Some u)) st) = mood_value row.
Proof. intros Hm. unfold_js. by rewrite Hm. Qed.

(** X5. When the mood store answers a reading, the page takes the value
    of its first row as the mood. A value that differs from the mood so
    far, and is not 0, starts a refresh with the bundle of the new mood
    and sets [loading]; a value equal to the mood so far, or the value 0,
    starts none. *)
Theorem mood_reading_starts_refresh
    (w : world) (u : User) (p : page) (row : MoodRow) (rest : list MoodRow) :
  moodTable w (user_id u) = Some {| rows := Some (row :: rest); query_error := None |} →
  currentMood (ui (step w p (MoodStoreSettles (Some u)))) = mood_value row ∧
  (mood_value row ≠ currentMood (ui p) → mood_value row ≠ 0 →
     refreshes (step w p (MoodStoreSettles (Some u))) =
       refreshes p ++ [{| content := getMoodBasedContent (mood_value row);
                          awaiting := [Audius; YouTube; GoogleBooks];
                          status := Waiting |}] ∧
     loading (ui (step w p (MoodStoreSettles (Some u)))) = true) ∧
  (mood_value row = currentMood (ui p) ∨ mood_value row = 0 →
     refreshes (step w p (MoodStoreSettles (Some u))) = refreshes p ∧
     loading (ui (step w p (MoodStoreSettles (Some u)))) = loading (ui p)).
Proof.
  intros Hm.
  destruct (fetchUserMood_frame w (Some u) (ui p)) as (_ & _ & _ & Hl).
  pose proof (fetchUserMood_reading w u (ui p) row rest Hm) as Hrow. cbv zeta in Hl.
  unfold step. remember (exec (fetchUserMood w (Some u)) (ui p)) as st eqn:Est.
  clear Est. cbv zeta.
  case_bool_decide as Hsame.
  - simpl. split; [done|]. split; [intros; congruence|]. intros _. done.
  - unfold mood_effect. simpl ui. rewrite Hrow.
    case_bool_decide as Hzero.
    + simpl. split; [done|]. split; [by rewrite Hrow|].
      intros [?|?]; congruence.
    + simpl. split; [done|]. split; [intros; congruence|]. intros _. done.
Qed.

Lemma mood_reading_starts_refresh_witness :
  map content (refreshes (step
    (with_moods (Some {| rows := Some [{| mood_value := 8 |}]; query_error := None |}) offline)
    mount (MoodStoreSettles (Some {| user_id := "u1" |}))))
    = [middle_bundle; high_bundle].
Proof.
  pose proof (mood_reading_starts_refresh
    (with_moods (Some {| rows := Some [{| mood_value := 8 |}]; query_error := None |}) offline)
    {| user_id := "u1" |} mount {| mood_value := 8 |} [] eq_refl) as (_ & Hnew & _).
  destruct (Hnew ltac:(discriminate) ltac:(discriminate)) as [-> _]. reflexivity.
Defined.

(** A reading of 0 is shown as the mood but starts no refresh. *)
Example mood_0_starts_no_refresh :
  currentMood (ui (step
    (with_moods (Some {| rows := Some [{| mood_value := 0 |}]; query_error := None |}) offline)
    mount (MoodStoreSettles the_user))) = 0 ∧
  length (refreshes (step
    (with_moods (Some {| rows := Some [{| mood_value := 0 |}]; query_error := None |}) offline)
    mount (MoodStoreSettles the_user))) = 1%nat.
Proof. split; reflexivity. Qed.

(** ** The adapters, one beside the other *)

(** X6. An adapter writes its own list only: the track adapter leaves
    videos and books alone, and so on; none of them touches the mood,
    the loading flag, the playback set or the selection, and the
    notifications and console lines already there stay, new ones are
    added at the end. *)
Theorem adapter_touches_own_list (w : world) (c : QueryBundle) (a : adapter) (st : state) :
  (a ≠ Audius → tracks (exec (run_adapter w c a) st) = tracks st) ∧
  (a ≠ YouTube → videos (exec (run_adapter w c a) st) = videos st) ∧
  (a ≠ GoogleBooks → books (exec (run_adapter w c a) st) = books st) ∧
  currentMood (exec (run_adapter w c a) st) = currentMood st ∧
  loading (exec (run_adapter w c a) st) = loading st ∧
  playingTracks (exec (run_adapter w c a) st) = playingTracks st ∧
  selectedBook (exec (run_adapter w c a) st) = selectedBook st ∧
  toasts (exec (run_adapter w c a) st) = toasts st ++ emitted w c a ∧
  ∃ lines, console (exec (run_adapter w c a) st) = console st ++ lines.
Proof.
  unfold emitted. destruct a; unfold_js.
  - destruct (audius w _) as [[[] [[|[]]|]]|]; simpl;
      rewrite ?app_nil_r; repeat split; try done;
      first [by exists [] ; rewrite app_nil_r | by eexists].
  - destruct (youtube_search w _) as [[[|[]] []]|]; simpl;
      rewrite ?app_nil_r; repeat split; try done;
      first [by exists [] ; rewrite app_nil_r | by eexists].
  - destruct (google_books w _) as [[[] [[|[]]|]]|]; simpl;
      rewrite ?app_nil_r; repeat split; try done;
      first [by exists [] ; rewrite app_nil_r | by eexists].
Qed.

Lemma adapter_touches_own_list_witness :
  videos (exec (run_adapter audius_up middle_bundle Audius) initial_state) = IsArray [] ∧
  books (exec (run_adapter audius_up middle_bundle Audius) initial_state) = IsArray [].
Proof.
  pose proof (adapter_touches_own_list audius_up middle_bundle Audius initial_state)
    as (_ & Hv & Hb & _).
  split; [apply Hv | apply Hb]; discriminate.
Defined.

(** What an adapter writes in its own list depends on that list alone. *)
Lemma adapter_own_list_local (w : world) (c : QueryBundle) (a : adapter) (st1 st2 : state) :
  (tracks st1 = tracks st2 →
     tracks (exec (run_adapter w c a) st1) = tracks (exec (run_adapter w c a) st2)) ∧
  (videos st1 = videos st2 →
     videos (exec (run_adapter w c a) st1) = videos (exec (run_adapter w c a) st2)) ∧
  (books st1 = books st2 →
     books (exec (run_adapter w c a) st1) = books (exec (run_adapter w c a) st2)).
Proof.
  destruct a; unfold_js.
  - destruct (audius w _) as [[[] [[|[]]|]]|]; simpl; done.
  - destruct (youtube_search w _) as [[[|[]] []]|]; simpl; done.
  - destruct (google_books w _) as [[[] [[|[]]|]]|]; simpl; done.
Qed.

(** The lists of the other adapters, and the notifications, after a call. *)
Lemma adapter_other_lists (w : world) (c : QueryBundle) (a : adapter) (st : state) :
  (a ≠ Audius → tracks (exec (run_adapter w c a) st) = tracks st) ∧
  (a ≠ YouTube → videos (exec (run_adapter w c a) st) = videos st) ∧
  (a ≠ GoogleBooks → books (exec (run_adapter w c a) st) = books st) ∧
  toasts (exec (run_adapter w c a) st) = toasts st ++ emitted w c a.
Proof.
  unfold emitted. destruct a; unfold_js.
  - destruct (audius w _) as [[[] [[|[]]|]]|]; simpl;
      rewrite ?app_nil_r; repeat split; done.
  - destruct (youtube_search w _) as [[[|[]] []]|]; simpl;
      rewrite ?app_nil_r; repeat split; done.
  - destruct (google_books w _) as [[[] [[|[]]|]]|]; simpl;
      rewrite ?app_nil_r; repeat split; done.
Qed.

Lemma emitted_at_most_one (w : world) (c : QueryBundle) (a : adapter) :
  emitted w c a = [] ∨ emitted w c a = [failure_toast a].
Proof.
  unfold emitted.
  destruct (adapter_at_most_one_toast w c a initial_state) as [->| ->]; auto.
Qed.

(** ** The refresh as a whole *)

Ltac settle_step :=
  match goal with
  | |- context [settle ?w ?a (?st, ?t)] =>
      let Hs := fresh "Hs" in
      let Hr := fresh "Hr" in
      let st' := fresh "st" in
      let rest := eval vm_compute in (others a (awaiting t)) in
      destruct (settle_waiting w a st t) as (st' & Hr & _ & _ & Hs);
      [reflexivity | simpl; set_solver
      | change (others a (awaiting t)) with rest in Hs;
        cbv beta iota in Hs; rewrite Hs; clear Hs;
        assert (st' = exec (run_adapter w (content t) a) st)
          by exact (eq_sym (f_equal snd Hr));
        subst st'; clear Hr; simpl content]
  end.

(** The state in which a refresh ends: the three adapters run one after
    the other in the order in which they settle, between the two writes
    of [loading]. *)
Lemma loadRecommendations_state (w : world) (a b c : adapter) (st : state) :
  [a; b; c] ∈ permutations [Audius; YouTube; GoogleBooks] →
  (loadRecommendations w [a; b; c] st).1 =
    exec (setLoading false)
      (exec (run_adapter w (getMoodBasedContent (currentMood st)) c)
        (exec (run_adapter w (getMoodBasedContent (currentMood st)) b)
          (exec (run_adapter w (getMoodBasedContent (currentMood st)) a)
            (exec (setLoading true) st)))).
Proof.
  intros Hin. vm_compute in Hin.
  repeat (apply elem_of_cons in Hin as [Hin|Hin]; [simplify_eq|]);
    [..| by apply elem_of_nil in Hin];
    unfold loadRecommendations, loadRecommendations_begin, settle_all; cbn zeta;
    simpl foldl; settle_step; settle_step; settle_step; reflexivity.
Qed.

(** Three adapters in any order: each list is what its own adapter makes
    of it, the notifications are those of the three, in the order run. *)
Lemma three_adapters (w : world) (q : QueryBundle) (a b c : adapter) (st : state) :
  [a; b; c] ∈ permutations [Audius; YouTube; GoogleBooks] →
  tracks (exec (run_adapter w q c) (exec (run_adapter w q b) (exec (run_adapter w q a) st)))
    = tracks (exec (run_adapter w q Audius) st) ∧
  videos (exec (run_adapter w q c) (exec (run_adapter w q b) (exec (run_adapter w q a) st)))
    = videos (exec (run_adapter w q YouTube) st) ∧
  books (exec (run_adapter w q c) (exec (run_adapter w q b) (exec (run_adapter w q a) st)))
    = books (exec (run_adapter w q GoogleBooks) st) ∧
  toasts (exec (run_adapter w q c) (exec (run_adapter w q b) (exec (run_adapter w q a) st)))
    = toasts st ++ flat_map (emitted w q) [a; b; c].
Proof.
  intros Hin.
  assert (Hframe : ∀ x s,
    (x ≠ Audius → tracks (exec (run_adapter w q x) s) = tracks s) ∧
    (x ≠ YouTube → videos (exec (run_adapter w q x) s) = videos s) ∧
    (x ≠ GoogleBooks → books (exec (run_adapter w q x) s) = books s)).
  { intros x s. destruct (adapter_other_lists w q x s) as (? & ? & ? & _). done. }
  assert (Hto : ∀ x s, toasts (exec (run_adapter w q x) s) = toasts s ++ emitted w q x).
  { intros x s. by destruct (adapter_other_lists w q x s) as (_ & _ & _ & ?). }
  assert (Hloc := adapter_own_list_local w q).
  split; [|split; [|split]];
    [| | |rewrite !Hto; simpl; by rewrite app_nil_r, <- !app_assoc];
    vm_compute in Hin;
    repeat (apply elem_of_cons in Hin as [Hin|Hin]; [simplify_eq|]);
    try (by apply elem_of_nil in Hin);
    repeat first
      [ reflexivity
      | match goal with
        | |- tracks (exec (run_adapter _ _ ?x) ?s) = _ =>
            lazymatch x with
            | Audius => apply (Hloc Audius)
            | _ => rewrite (proj1 (Hframe x s)) by discriminate
            end
        | |- videos (exec (run_adapter _ _ ?x) ?s) = _ =>
            lazymatch x with
            | YouTube => apply (Hloc YouTube)
            | _ => rewrite (proj1 (proj2 (Hframe x s))) by discriminate
            end
        | |- books (exec (run_adapter _ _ ?x) ?s) = _ =>
            lazymatch x with
            | GoogleBooks => apply (Hloc GoogleBooks)
            | _ => rewrite (proj2 (proj2 (Hframe x s))) by discriminate
            end
        end ].
Qed.

Lemma adapter_keeps_rest (w : world) (c : QueryBundle) (a : adapter) (st : state) :
  currentMood (exec (run_adapter w c a) st) = currentMood st ∧
  loading (exec (run_adapter w c a) st) = loading st ∧
  playingTracks (exec (run_adapter w c a) st) = playingTracks st ∧
  selectedBook (exec (run_adapter w c a) st) = selectedBook st.
Proof.
  unfold exec.
  by destruct (run_adapter_normal w c a st) as (st' & -> & ? & ? & ? & ?).
Qed.

Lemma three_of_permutation (order : list adapter) :
  order ≡ₚ [Audius; YouTube; GoogleBooks] →
  ∃ a b c, order = [a; b; c] ∧ [a; b; c] ∈ permutations [Audius; YouTube; GoogleBooks].
Proof.
  intros Hperm.
  assert (Hlen : length order = 3%nat) by by rewrite Hperm.
  destruct order as [|a [|b [|c [|]]]]; try discriminate.
  exists a, b, c. split; [done|]. apply permutations_Permutation. by symmetry.
Qed.

(** X7. The order in which the three adapters settle does not matter for
    what a refresh leaves on the page: the same tracks, videos and
    books, the same mood, playback set and selection, [loading] false;
    the notifications are the same ones, possibly in another order. *)
Theorem refresh_result_independent_of_order
    (w : world) (order1 order2 : list adapter) (st : state) :
  order1 ≡ₚ [Audius; YouTube; GoogleBooks] →
  order2 ≡ₚ [Audius; YouTube; GoogleBooks] →
  tracks (loadRecommendations w order1 st).1 = tracks (loadRecommendations w order2 st).1 ∧
  videos (loadRecommendations w order1 st).1 = videos (loadRecommendations w order2 st).1 ∧
  books (loadRecommendations w order1 st).1 = books (loadRecommendations w order2 st).1 ∧
  loading (loadRecommendations w order1 st).1 = loading (loadRecommendations w order2 st).1 ∧
  currentMood (loadRecommendations w order1 st).1
    = currentMood (loadRecommendations w order2 st).1 ∧
  playingTracks (loadRecommendations w order1 st).1
    = playingTracks (loadRecommendations w order2 st).1 ∧
  selectedBook (loadRecommendations w order1 st).1
    = selectedBook (loadRecommendations w order2 st).1 ∧
  toasts (loadRecommendations w order1 st).1 ≡ₚ toasts (loadRecommendations w order2 st).1.
Proof.
  intros H1 H2.
  destruct (three_of_permutation order1 H1) as (a1 & b1 & c1 & -> & Hin1).
  destruct (three_of_permutation order2 H2) as (a2 & b2 & c2 & -> & Hin2).
  rewrite !loadRecommendations_state by done.
  set (q := getMoodBasedContent (currentMood st)). set (st1 := exec (setLoading true) st).
  destruct (three_adapters w q a1 b1 c1 st1 Hin1) as (Ht1 & Hv1 & Hb1 & Hn1).
  destruct (three_adapters w q a2 b2 c2 st1 Hin2) as (Ht2 & Hv2 & Hb2 & Hn2).
  assert (Hrest : ∀ a b c,
    currentMood (exec (run_adapter w q c) (exec (run_adapter w q b)
      (exec (run_adapter w q a) st1))) = currentMood st1 ∧
    playingTracks (exec (run_adapter w q c) (exec (run_adapter w q b)
      (exec (run_adapter w q a) st1))) = playingTracks st1 ∧
    selectedBook (exec (run_adapter w q c) (exec (run_adapter w q b)
      (exec (run_adapter w q a) st1))) = selectedBook st1).
  { intros a b c.
    destruct (adapter_keeps_rest w q c (exec (run_adapter w q b)
      (exec (run_adapter w q a) st1))) as (-> & _ & -> & ->).
    destruct (adapter_keeps_rest w q b (exec (run_adapter w q a) st1)) as (-> & _ & -> & ->).
    by destruct (adapter_keeps_rest w q a st1) as (-> & _ & -> & ->). }
  destruct (Hrest a1 b1 c1) as (Hm1 & Hp1 & Hs1).
  destruct (Hrest a2 b2 c2) as (Hm2 & Hp2 & Hs2).
  change (tracks (exec (setLoading false) ?s)) with (tracks s).
  change (videos (exec (setLoading false) ?s)) with (videos s).
  change (books (exec (setLoading false) ?s)) with (books s).
  change (currentMood (exec (setLoading false) ?s)) with (currentMood s).
  change (playingTracks (exec (setLoading false) ?s)) with (playingTracks s).
  change (selectedBook (exec (setLoading false) ?s)) with (selectedBook s).
  change (toasts (exec (setLoading false) ?s)) with (toasts s).
  rewrite Ht1, Ht2, Hv1, Hv2, Hb1, Hb2, Hm1, Hm2, Hp1, Hp2, Hs1, Hs2, Hn1, Hn2.
  repeat split; try done.
  apply Permutation_app_head, Permutation_flat_map.
  by rewrite H1, H2.
Qed.

Lemma refresh_result_independent_of_order_witness :
  tracks (loadRecommendations partly_down [GoogleBooks; YouTube; Audius] one_track_state).1
    = tracks (loadRecommendations partly_down [Audius; YouTube; GoogleBooks] one_track_state).1 ∧
  toasts (loadRecommendations partly_down [GoogleBooks; YouTube; Audius] one_track_state).1
    ≡ₚ toasts (loadRecommendations partly_down [Audius; YouTube; GoogleBooks] one_track_state).1.
Proof.
  assert (Hperm : [GoogleBooks; YouTube; Audius] ≡ₚ [Audius; YouTube; GoogleBooks]).
  { symmetry. apply permutations_Permutation. vm_compute. set_solver. }
  pose proof (refresh_result_independent_of_order partly_down
    [GoogleBooks; YouTube; Audius] [Audius; YouTube; GoogleBooks] one_track_state
    Hperm (reflexivity _)) as (Ht & _ & _ & _ & _ & _ & _ & Hn).
  split; [exact Ht | exact Hn].
Defined.

(** X8. A refresh adds at most three notifications to those already
    shown, never the same one twice, each of them the failure message of
    one of the three sections; an adapter whose provider call rejects
    has its message among them. *)
Theorem refresh_notifications (w : world) (order : list adapter) (st : state) :
  order ≡ₚ [Audius; YouTube; GoogleBooks] →
  ∃ added,
    toasts (loadRecommendations w order st).1 = toasts st ++ added ∧
    (length added ≤ 3)%nat ∧ NoDup added ∧
    (∀ t, t ∈ added → t = music_toast ∨ t = podcast_toast ∨ t = book_toast) ∧
    (∀ a, adapter_failure w (getMoodBasedContent (currentMood st)) a = Some TransportError →
          failure_toast a ∈ added).
Proof.
  intros Hperm.
  destruct (three_of_permutation order Hperm) as (a & b & c & -> & Hin).
  rewrite loadRecommendations_state by done.
  set (q := getMoodBasedContent (currentMood st)).
  destruct (three_adapters w q a b c (exec (setLoading true) st) Hin) as (_ & _ & _ & Hn).
  change (toasts (exec (setLoading false) ?s)) with (toasts s). rewrite Hn.
  exists (flat_map (emitted w q) [a; b; c]). split; [done|].
  assert (Hfail : ∀ x, adapter_failure w q x = Some TransportError →
                       emitted w q x = [failure_toast x]).
  { intros x Hx. unfold emitted.
    revert Hx. destruct x; unfold adapter_failure, fetch_failure, invoke_failure; unfold_js.
    - destruct (audius w _) as [[[] [[|[]]|]]|]; simpl; intros; by simplify_eq.
    - destruct (youtube_search w _) as [[[|[]] []]|]; simpl; intros; by simplify_eq.
    - destruct (google_books w _) as [[[] [[|[]]|]]|]; simpl; intros; by simplify_eq. }
  assert (Hcases : ∀ x, emitted w q x = [] ∨ emitted w q x = [failure_toast x])
    by apply emitted_at_most_one.
  vm_compute in Hin.
  repeat (apply elem_of_cons in Hin as [Hin|Hin]; [simplify_eq|]);
    try (by apply elem_of_nil in Hin);
    pose proof (Hfail Audius) as HfA; pose proof (Hfail YouTube) as HfY;
    pose proof (Hfail GoogleBooks) as HfG;
    destruct (Hcases Audius) as [EA|EA]; destruct (Hcases YouTube) as [EY|EY];
    destruct (Hcases GoogleBooks) as [EG|EG];
    simpl flat_map; rewrite EA, EY, EG in *; simpl;
    (split; [lia|]);
    (split; [repeat (apply NoDup_cons; split;
               [rewrite ?not_elem_of_cons; repeat split;
                  first [discriminate | apply not_elem_of_nil]|]);
             apply NoDup_nil_2|]);
    (split; [intros t Ht; set_solver|]);
    intros x Hx; destruct x;
    first [ specialize (HfA Hx); discriminate HfA
          | specialize (HfY Hx); discriminate HfY
          | specialize (HfG Hx); discriminate HfG
          | set_solver ].
Qed.

Lemma refresh_notifications_witness :
  toasts (loadRecommendations offline [YouTube; GoogleBooks; Audius] initial_state).1
    = [podcast_toast; book_toast; music_toast].
Proof.
  assert (Hperm : [YouTube; GoogleBooks; Audius] ≡ₚ [Audius; YouTube; GoogleBooks]).
  { symmetry. apply permutations_Permutation. vm_compute. set_solver. }
  destruct (refresh_notifications offline [YouTube; GoogleBooks; Audius] initial_state Hperm)
    as (added & Hadded & _).
  reflexivity.
Defined.

(** X9. When the three providers all answer a list, the refresh replaces
    the three lists wholesale: tracks are the first six of the answered
    tracks longer than 30 seconds, videos and books the answered lists,
    whatever was on the page before; no notification is added. *)
Theorem refresh_replaces_wholesale
    (w : world) (order : list adapter) (st : state)
    (ts : list Track) (vs : list YouTubeVideo) (bs : list Book) :
  order ≡ₚ [Audius; YouTube; GoogleBooks] →
  audius w (audius_url (musicQuery (getMoodBasedContent (currentMood st)))) = ok_with ts →
  youtube_search w (podcastQuery (getMoodBasedContent (currentMood st))) = invoke_with vs →
  google_books w (books_url (bookQuery (getMoodBasedContent (currentMood st)))) = ok_with bs →
  tracks (loadRecommendations w order st).1
    = take 6 (List.filter (λ track, duration track >? 30) ts) ∧
  videos (loadRecommendations w order st).1 = IsArray vs ∧
  books (loadRecommendations w order st).1 = IsArray bs ∧
  toasts (loadRecommendations w order st).1 = toasts st ∧
  loading (loadRecommendations w order st).1 = false.
Proof.
  intros Hperm Ha Hy Hb.
  destruct (three_of_permutation order Hperm) as (a & b & c & -> & Hin).
  rewrite loadRecommendations_state by done.
  set (q := getMoodBasedContent (currentMood st)) in *.
  destruct (three_adapters w q a b c (exec (setLoading true) st) Hin)
    as (Ht & Hv & Hbk & Hn).
  change (tracks (exec (setLoading false) ?s)) with (tracks s).
  change (videos (exec (setLoading false) ?s)) with (videos s).
  change (books (exec (setLoading false) ?s)) with (books s).
  change (toasts (exec (setLoading false) ?s)) with (toasts s).
  rewrite Ht, Hv, Hbk, Hn.
  assert (Hem : ∀ x, emitted w q x = []).
  { intros x. unfold emitted. destruct x; unfold_js; by rewrite ?Ha, ?Hy, ?Hb. }
  assert (Hfl : flat_map (emitted w q) [a; b; c] = []).
  { simpl. by rewrite !Hem. }
  rewrite Hfl, app_nil_r.
  unfold_js. rewrite Ha, Hy, Hb. simpl.
  destruct (slice_0_length 6 (List.filter (λ track, duration track >? 30) ts)) as [-> _].
  done.
Qed.

Lemma refresh_replaces_wholesale_witness :
  tracks (loadRecommendations
    (with_audius (ok_with three_tracks) small_answers)
    [YouTube; Audius; GoogleBooks] one_track_state).1
    = [a_track "song" 45; a_track "mix" 200].
Proof.
  assert (Hperm : [YouTube; Audius; GoogleBooks] ≡ₚ [Audius; YouTube; GoogleBooks]).
  { symmetry. apply permutations_Permutation. vm_compute. set_solver. }
  pose proof (refresh_replaces_wholesale (with_audius (ok_with three_tracks) small_answers)
    [YouTube; Audius; GoogleBooks] one_track_state three_tracks
    [a_video "v1"] [a_book "b1"; a_book "b2"] Hperm eq_refl eq_refl eq_refl) as (Ht & _).
  exact Ht.
Defined.

(** ** Answers of an unexpected shape *)

(** X10. A success answer that carries no list: the track list and the
    book list become empty, the video list stays as it was; none of the
    three adapters notifies. *)
Theorem answer_without_list (w : world) (c : QueryBundle) (st : state) :
  (audius w (audius_url (musicQuery c)) = ok_body (JsonValue Absent) →
     tracks (exec (run_adapter w c Audius) st) = [] ∧
     toasts (exec (run_adapter w c Audius) st) = toasts st) ∧
  (google_books w (books_url (bookQuery c)) = ok_body (JsonValue Absent) →
     books (exec (run_adapter w c GoogleBooks) st) = IsArray [] ∧
     toasts (exec (run_adapter w c GoogleBooks) st) = toasts st) ∧
  (youtube_search w (podcastQuery c) = invoke_data (JsonValue Absent) →
     exec (run_adapter w c YouTube) st = st).
Proof.
  split; [|split]; intros Hw; unfold_js; rewrite Hw; simpl; [done..|].
  by destruct st.
Qed.

Lemma answer_without_list_witness :
  tracks (exec (run_adapter (with_audius (ok_body (JsonValue Absent)) offline)
    middle_bundle Audius) one_track_state) = [] ∧
  videos (exec (run_adapter (with_youtube (invoke_data (JsonValue Absent)) offline)
    middle_bundle YouTube) (exec (setVideos (IsArray [a_video "v1"])) initial_state))
    = IsArray [a_video "v1"].
Proof.
  pose proof (answer_without_list (with_audius (ok_body (JsonValue Absent)) offline)
    middle_bundle one_track_state) as (Ha & _).
  pose proof (answer_without_list (with_youtube (invoke_data (JsonValue Absent)) offline)
    middle_bundle (exec (setVideos (IsArray [a_video "v1"])) initial_state)) as (_ & _ & Hy).
  split; [apply Ha; reflexivity | rewrite Hy; reflexivity].
Defined.

(** X11. Answers that are JSON but not of the expected shape. A body
    [null] makes the track and the book adapter notify once and keep
    their list; the video adapter ignores it in silence. A list property
    that is not an array makes the track adapter notify once and keep
    its list, while the video and the book adapter put the value on the
    page as it is, without notifying. *)
Theorem answer_of_wrong_shape (w : world) (c : QueryBundle) (st : state) :
  (audius w (audius_url (musicQuery c)) = ok_body JsonNull ∨
   audius w (audius_url (musicQuery c)) = ok_body (JsonValue Other) →
     tracks (exec (run_adapter w c Audius) st) = tracks st ∧
     toasts (exec (run_adapter w c Audius) st) = toasts st ++ [music_toast]) ∧
  (google_books w (books_url (bookQuery c)) = ok_body JsonNull →
     books (exec (run_adapter w c GoogleBooks) st) = books st ∧
     toasts (exec (run_adapter w c GoogleBooks) st) = toasts st ++ [book_toast]) ∧
  (google_books w (books_url (bookQuery c)) = ok_body (JsonValue Other) →
     books (exec (run_adapter w c GoogleBooks) st) = NotArray ∧
     toasts (exec (run_adapter w c GoogleBooks) st) = toasts st) ∧
  (youtube_search w (podcastQuery c) = invoke_data JsonNull →
     exec (run_adapter w c YouTube) st = st) ∧
  (youtube_search w (podcastQuery c) = invoke_data (JsonValue Other) →
     videos (exec (run_adapter w c YouTube) st) = NotArray ∧
     toasts (exec (run_adapter w c YouTube) st) = toasts st).
Proof.
  split; [|split; [|split; [|split]]].
  - intros [Hw|Hw]; unfold_js; rewrite Hw; done.
  - intros Hw; unfold_js; rewrite Hw; done.
  - intros Hw; unfold_js; rewrite Hw; done.
  - intros Hw; unfold_js; rewrite Hw; simpl. by destruct st.
  - intros Hw; unfold_js; rewrite Hw; done.
Qed.

Lemma answer_of_wrong_shape_witness :
  toasts (exec (run_adapter (with_audius (ok_body JsonNull) offline)
    middle_bundle Audius) one_track_state) = [music_toast] ∧
  books (exec (run_adapter (with_books (ok_body (JsonValue Other)) offline)
    middle_bundle GoogleBooks) one_track_state) = NotArray.
Proof.
  pose proof (answer_of_wrong_shape (with_audius (ok_body JsonNull) offline)
    middle_bundle one_track_state) as (Ha & _).
  pose proof (answer_of_wrong_shape (with_books (ok_body (JsonValue Other)) offline)
    middle_bundle one_track_state) as (_ & _ & Hb & _).
  split; [apply Ha; left; reflexivity | apply Hb; reflexivity].
Defined.

(** ** Refreshes in flight *)

(** What one settling adapter does to its task and to [loading]. *)
Lemma settle_cases (w : world) (a : adapter) (st : state) (t : task) :
  content (settle w a (st, t)).2 = content t ∧
  playingTracks (settle w a (st, t)).1 = playingTracks st ∧
  selectedBook (settle w a (st, t)).1 = selectedBook st ∧
  currentMood (settle w a (st, t)).1 = currentMood st ∧
  ((status (settle w a (st, t)).2 = status t ∧
    loading (settle w a (st, t)).1 = loading st) ∨
   (status t = Waiting ∧ status (settle w a (st, t)).2 = Fulfilled ∧
    loading (settle w a (st, t)).1 = false)).
Proof.
  unfold settle. destruct (decide (a ∈ awaiting t)); [|by auto 10].
  destruct (run_adapter_normal w (content t) a st) as (st' & -> & Hm & Hl & Hp & Hs).
  destruct (status t) eqn:Est; [destruct (List.filter _ _)|..]; simpl; auto 10.
Qed.

(** X12. The adapter that settles last in a refresh clears [loading]
    whatever else is going on: the other refreshes of the page are left
    as they are, also one that is still waiting for its adapters. *)
Theorem last_adapter_clears_loading
    (w : world) (p : page) (i : nat) (a : adapter) (t : task) :
  refreshes p !! i = Some t → status t = Waiting → awaiting t = [a] →
  loading (ui (step w p (AdapterSettles i a))) = false ∧
  (∃ t', refreshes (step w p (AdapterSettles i a)) !! i = Some t' ∧ status t' = Fulfilled) ∧
  (∀ j, j ≠ i → refreshes (step w p (AdapterSettles i a)) !! j = refreshes p !! j).
Proof.
  intros Hi Hw Ha. unfold step. rewrite Hi.
  destruct (settle_waiting w a (ui p) t Hw) as (st' & _ & _ & _ & Hs).
  { rewrite Ha. set_solver. }
  rewrite Ha in Hs.
  assert (Ho : others a [a] = []).
  { unfold others. simpl. by rewrite bool_decide_eq_true_2. }
  rewrite Ho in Hs. rewrite Hs. simpl. split; [done|]. split.
  - exists {| content := content t; awaiting := []; status := Fulfilled |}.
    split; [|reflexivity].
    apply list_lookup_insert_eq. by eapply lookup_lt_Some.
  - intros j Hj. by apply list_lookup_insert_ne.
Qed.

Lemma last_adapter_clears_loading_witness :
  loading (ui (step mood_8 two_refreshes_in_flight (AdapterSettles 0 GoogleBooks))) = false ∧
  (status <$> refreshes (step mood_8 two_refreshes_in_flight (AdapterSettles 0 GoogleBooks))
     !! 1%nat) = Some Waiting.
Proof.
  pose proof (last_adapter_clears_loading mood_8 two_refreshes_in_flight 0 GoogleBooks
    {| content := middle_bundle; awaiting := [GoogleBooks]; status := Waiting |}
    eq_refl eq_refl eq_refl) as (Hl & _ & Hother).
  split; [exact Hl|]. rewrite (Hother 1%nat); [reflexivity | discriminate].
Defined.

Lemma step_settled_before_idle (w : world) (e : event) (p : page) :
  settled_before_idle p → settled_before_idle (step w p e).
Proof.
  intros (Hne & Hrej & Hidle).
  assert (Happ : ∀ st, settled_before_idle
    {| ui := (loadRecommendations_begin st).1;
       refreshes := refreshes p ++ [(loadRecommendations_begin st).2] |}).
  { intros st. split; [|split]; simpl.
    - by destruct (refreshes p).
    - intros j t e' Hj. apply lookup_app_Some in Hj as [Hj|[_ Hj]]; [by eapply Hrej|].
      apply list_lookup_singleton_Some in Hj as [_ <-]. done.
    - done. }
  destruct e as [user|i a| |e|e]; simpl.
  - destruct (fetchUserMood_frame w user (ui p)) as (_ & _ & _ & Hl). cbv zeta in Hl.
    case_bool_decide.
    + split; [done|]. split; [done|]. simpl. rewrite Hl. done.
    + unfold mood_effect. simpl. case_bool_decide; [apply Happ|].
      split; [done|]. split; [done|]. simpl. rewrite Hl. done.
  - destruct (refreshes p !! i) as [t|] eqn:Hi; [|done].
    destruct (settle_cases w a (ui p) t) as (_ & _ & _ & _ & Hc).
    destruct (settle w a (ui p, t)) as [st' t'] eqn:Es. simpl in Hc.
    assert (Hlt : (i < length (refreshes p))%nat) by by eapply lookup_lt_Some.
    split; [|split]; simpl.
    + intros Hnil. apply (f_equal length) in Hnil. rewrite length_insert in Hnil.
      simpl in Hnil. lia.
    + intros j t0 e' Hj. destruct (decide (j = i)) as [->|Hji].
      * rewrite list_lookup_insert_eq in Hj by done. injection Hj as <-.
        destruct Hc as [[-> _]|(_ & -> & _)]; [by eapply Hrej|done].
      * rewrite list_lookup_insert_ne in Hj by done. by eapply Hrej.
    + intros Hl. destruct Hc as [[Hst Hld]|(_ & Hst & _)].
      * rewrite Hld in Hl. destruct (Hidle Hl) as (j & t0 & Hj & Hf).
        destruct (decide (j = i)) as [->|Hji].
        -- exists i, t'. rewrite list_lookup_insert_eq by done. split; [done|].
           rewrite Hst. congruence.
        -- exists j, t0. by rewrite list_lookup_insert_ne.
      * exists i, t'. by rewrite list_lookup_insert_eq.
  - destruct (loading (ui p)) eqn:Hl; [by split; [|split; [|rewrite Hl]]|].
    apply Happ.
  - split; [done|]. split; [done|]. simpl.
    destruct (playback_selection_frame (ui p)) as [Hp _].
    destruct (Hp e) as (_ & _ & _ & _ & ->). done.
  - split; [done|]. split; [done|]. simpl.
    destruct (playback_selection_frame (ui p)) as [_ Hp].
    destruct (Hp e) as (_ & _ & _ & _ & ->). done.
Qed.

(** X13. Along every run of the page, whatever the providers answer: a
    refresh has been started, no refresh is ever rejected, and [loading]
    is false only when some refresh has fully settled; so the text of no
    music results never shows before that. *)
Theorem loading_until_a_refresh_settles (es : list (world * event)) :
  refreshes (run mount es) ≠ [] ∧
  (∀ j t e, refreshes (run mount es) !! j = Some t → status t ≠ Rejected e) ∧
  (loading (ui (run mount es)) = false →
     ∃ j t, refreshes (run mount es) !! j = Some t ∧ status t = Fulfilled) ∧
  (music (render (ui (run mount es))) = NoMusicFound →
     ∃ j t, refreshes (run mount es) !! j = Some t ∧ status t = Fulfilled).
Proof.
  assert (Hinv : settled_before_idle (run mount es)).
  { unfold run. assert (H0 : settled_before_idle mount).
    { split; [done|]. split; [|done].
      intros [|j] t e Hj; simpl in Hj; by simplify_eq. }
    revert H0. generalize mount.
    induction es as [|[w e] es IH]; intros p H0; simpl; [done|].
    apply IH. by apply step_settled_before_idle. }
  destruct Hinv as (Hne & Hrej & Hidle). split; [done|]. split; [done|]. split; [done|].
  intros Hm. apply Hidle. unfold render in Hm. simpl in Hm.
  destruct (loading (ui (run mount es))); [|done].
  by rewrite andb_false_r in Hm.
Qed.

Lemma loading_until_a_refresh_settles_witness :
  loading (ui (run mount [(offline, AdapterSettles 0 Audius);
    (offline, AdapterSettles 0 GoogleBooks); (offline, AdapterSettles 0 YouTube)])) = false ∧
  ∃ j t, refreshes (run mount [(offline, AdapterSettles 0 Audius);
    (offline, AdapterSettles 0 GoogleBooks); (offline, AdapterSettles 0 YouTube)]) !! j
      = Some t ∧ status t = Fulfilled.
Proof.
  pose proof (loading_until_a_refresh_settles [(offline, AdapterSettles 0 Audius);
    (offline, AdapterSettles 0 GoogleBooks); (offline, AdapterSettles 0 YouTube)])
    as (_ & _ & Hidle & _).
  split; [reflexivity|]. apply Hidle. reflexivity.
Defined.

(** X14. A track answer is put on the page by whichever refresh it
    belongs to: when the track adapter of any waiting refresh settles
    with a list, the page shows the first six long tracks of that list,
    found with the query of that refresh, also when a later refresh with
    another mood has been started or has already delivered. *)
Theorem late_answer_overwrites
    (w : world) (p : page) (i : nat) (t : task) (ts : list Track) :
  refreshes p !! i = Some t → status t = Waiting → Audius ∈ awaiting t →
  audius w (audius_url (musicQuery (content t))) = ok_with ts →
  tracks (ui (step w p (AdapterSettles i Audius)))
    = take 6 (List.filter (λ track, duration track >? 30) ts) ∧
  currentMood (ui (step w p (AdapterSettles i Audius))) = currentMood (ui p).
Proof.
  intros Hi Hw Hin Ha. unfold step. rewrite Hi.
  destruct (settle_waiting w Audius (ui p) t Hw Hin) as (st' & Hr & _ & Hm & Hs).
  assert (Hst : st' = exec (run_adapter w (content t) Audius) (ui p))
    by exact (eq_sym (f_equal snd Hr)).
  assert (Ht : tracks st' = take 6 (List.filter (λ track, duration track >? 30) ts)).
  { rewrite Hst. unfold_js. rewrite Ha. simpl.
    by destruct (slice_0_length 6 (List.filter (λ track, duration track >? 30) ts))
      as [-> _]. }
  rewrite Hs. by destruct (others Audius (awaiting t)).
Qed.

Lemma late_answer_overwrites_witness :
  tracks (ui newer_answer_first) = [a_track "upbeat" 100] ∧
  tracks (ui (step by_query newer_answer_first (AdapterSettles 0 Audius)))
    = [a_track "calm" 100] ∧
  currentMood (ui (step by_query newer_answer_first (AdapterSettles 0 Audius))) = 8.
Proof.
  pose proof (late_answer_overwrites by_query newer_answer_first 0
    {| content := middle_bundle; awaiting := [Audius; YouTube; GoogleBooks];
       status := Waiting |} [a_track "calm" 100] eq_refl eq_refl
    ltac:(constructor) eq_refl) as [Ht Hm].
  split; [reflexivity|]. split; [exact Ht | exact Hm].
Defined.

(** ** Playback and selection together *)

Lemma state_eq_playing (st : state) (X : gset string) :
  playingTracks st = X →
  {| currentMood := currentMood st; tracks := tracks st; videos := videos st;
     books := books st; loading := loading st; playingTracks := X;
     selectedBook := selectedBook st; toasts := toasts st; console := console st |} = st.
Proof. intros <-. by destruct st. Qed.

(** X15. The playback handlers compose as set operations on the track:
    the Play/Pause button undoes itself when pressed twice, whatever the
    state; a media play or pause event repeated changes nothing more; a
    pause after a play leaves the track not playing; and events on two
    different tracks can be taken in either order. *)
Theorem playback_handlers_compose (st : state) (x : string) (e1 e2 : playback_event) :
  exec (playTrack x) (exec (playTrack x) st) = st ∧
  exec (onPlay x) (exec (onPlay x) st) = exec (onPlay x) st ∧
  exec (onPause x) (exec (onPause x) st) = exec (onPause x) st ∧
  exec (onPause x) (exec (onPlay x) st) = exec (onPause x) st ∧
  reports_playing (exec (playTrack x) st) x = negb (reports_playing st x) ∧
  reports_playing (exec (onPlay x) st) x = true ∧
  reports_playing (exec (onPause x) st) x = false ∧
  (event_track e1 ≠ event_track e2 →
   exec (playback_handler e1) (exec (playback_handler e2) st)
     = exec (playback_handler e2) (exec (playback_handler e1) st)).
Proof.
  split; [|split; [|split; [|split; [|split; [|split; [|split]]]]]].
  - etrans; [|apply (state_eq_playing st (playingTracks st) eq_refl)].
    unfold exec, playTrack, setPlayingTracks; simpl. f_equal.
    destruct (decide (x ∈ playingTracks st)) as [Hin|Hin];
      [rewrite decide_False by set_solver | rewrite decide_True by set_solver];
      [|set_solver].
    apply set_eq. intros y. rewrite elem_of_union, elem_of_difference, elem_of_singleton.
    destruct (decide (y = x)) as [->|]; tauto.
  - unfold exec, onPlay, setPlayingTracks; simpl. f_equal. set_solver.
  - unfold exec, onPause, setPlayingTracks; simpl. f_equal. set_solver.
  - unfold exec, onPause, onPlay, setPlayingTracks; simpl. f_equal. set_solver.
  - unfold reports_playing. rewrite (playback_handler_set (TogglePlay x)).
    case_decide.
    + rewrite (bool_decide_eq_true_2 (x ∈ playingTracks st)) by done.
      apply bool_decide_eq_false_2. set_solver.
    + rewrite (bool_decide_eq_false_2 (x ∈ playingTracks st)) by done.
      apply bool_decide_eq_true_2. set_solver.
  - unfold reports_playing. rewrite (playback_handler_set (MediaPlay x)).
    apply bool_decide_eq_true_2. set_solver.
  - unfold reports_playing. rewrite (playback_handler_set (MediaPause x)).
    apply bool_decide_eq_false_2. set_solver.
  - intros Hne.
    destruct e1 as [y|y|y], e2 as [z|z|z]; simpl in Hne;
      unfold exec, playback_handler, playTrack, onPlay, onPause, setPlayingTracks;
      simpl; f_equal;
      destruct (decide (y ∈ playingTracks st)), (decide (z ∈ playingTracks st));
      repeat first [rewrite decide_True by set_solver | rewrite decide_False by set_solver];
      set_solver.
Qed.

Lemma playback_handlers_compose_witness :
  exec (playback_handler (TogglePlay "A")) (exec (playback_handler (MediaPlay "B")) initial_state)
  = exec (playback_handler (MediaPlay "B")) (exec (playback_handler (TogglePlay "A")) initial_state).
Proof.
  pose proof (playback_handlers_compose initial_state "A" (TogglePlay "A") (MediaPlay "B"))
    as (_ & _ & _ & _ & _ & _ & _ & Hc).
  apply Hc. discriminate.
Defined.

(** X16. Playback, selection and the adapters keep to their own part of
    the state: a playback event changes the playback set only, a
    selection event the selection only, and an adapter that settles, in
    whatever state its refresh is, changes neither; so a refresh never
    stops a track nor closes the open book detail, and a playback event
    and a selection event can be taken in either order. *)
Theorem playback_and_selection_independent
    (w : world) (st : state) (p : playback_event) (s : selection_event)
    (a : adapter) (t : task) :
  selectedBook (exec (playback_handler p) st) = selectedBook st ∧
  playingTracks (exec (selection_handler s) st) = playingTracks st ∧
  exec (playback_handler p) (exec (selection_handler s) st)
    = exec (selection_handler s) (exec (playback_handler p) st) ∧
  toasts (exec (playback_handler p) st) = toasts st ∧
  toasts (exec (selection_handler s) st) = toasts st ∧
  playingTracks (settle w a (st, t)).1 = playingTracks st ∧
  selectedBook (settle w a (st, t)).1 = selectedBook st.
Proof.
  destruct (settle_cases w a st t) as (_ & Hp & Hs & _).
  split; [by destruct p|]. split; [by destruct s|].
  split; [by destruct p, s|]. split; [by destruct p|]. split; [by destruct s|].
  done.
Qed.

(** ** The earlier page *)

(** X17. In the earlier copy of the page, along every sequence of
    toggles and audio events: nothing plays unless a track is current,
    at most one track reports a playing state, and a toggle always ends
    either with its track playing or, when that track was playing, with
    no current track at all. *)
Theorem legacy_single_track (es : list legacy_event) (x y : string) :
  (Legacy.isPlaying (legacy_run es) = true → Legacy.currentTrack (legacy_run es) ≠ None) ∧
  (legacy_reports_playing (legacy_run es) x = true →
   legacy_reports_playing (legacy_run es) y = true → x = y) ∧
  (legacy_reports_playing (legacy_run es) x = true →
     legacy_step (legacy_run es) (LegacyToggle x) = Legacy.initial) ∧
  (legacy_reports_playing (legacy_run es) x = false →
     legacy_reports_playing (legacy_step (legacy_run es) (LegacyToggle x)) x = true).
Proof.
  assert (Hinv : Legacy.isPlaying (legacy_run es) = true →
                 Legacy.currentTrack (legacy_run es) ≠ None).
  { unfold legacy_run.
    assert (H0 : Legacy.isPlaying Legacy.initial = true →
                 Legacy.currentTrack Legacy.initial ≠ None) by done.
    revert H0. generalize Legacy.initial.
    induction es as [|e es IH]; intros p H0; simpl; [done|].
    apply IH. destruct e as [z| |]; simpl.
    - unfold Legacy.playTrack. by destruct (_ && _).
    - destruct (Legacy.currentTrack p) eqn:E; [done|rewrite E; exact H0].
    - destruct (Legacy.currentTrack p) eqn:E; [done|rewrite E; exact H0]. }
  split; [exact Hinv|]. unfold legacy_reports_playing, legacy_step, Legacy.playTrack.
  split; [|split].
  - intros [Hx _]%andb_true_iff [Hy _]%andb_true_iff.
    apply bool_decide_eq_true in Hx, Hy. congruence.
  - intros ->. done.
  - intros ->. simpl. by rewrite bool_decide_eq_true_2.
Qed.

Lemma legacy_single_track_witness :
  legacy_reports_playing (legacy_run [LegacyToggle "A"; LegacyAudioPause; LegacyToggle "B"])
    "B" = true ∧
  legacy_step (legacy_run [LegacyToggle "A"; LegacyAudioPause; LegacyToggle "B"])
    (LegacyToggle "B") = Legacy.initial.
Proof.
  pose proof (legacy_single_track [LegacyToggle "A"; LegacyAudioPause; LegacyToggle "B"]
    "B" "B") as (_ & _ & Hstop & _).
  split; [reflexivity | apply Hstop; reflexivity].
Defined.

(** ** The request URLs *)

Lemma percent_encode_cases (c : ascii) :
  is_unreserved c = false →
  ∃ h1 h2, percent_encode c = String "%" (String h1 (String h2 EmptyString)) ∧
    is_unreserved h1 = true ∧ is_unreserved h2 = true ∧
    ascii_of_N (16 * hex_value h1 + hex_value h2) = c.
Proof.
  destruct c as [[] [] [] [] [] [] [] []]; intros Hc; try discriminate Hc;
    eexists _, _; (split; [reflexivity|]); vm_compute; by repeat split.
Qed.

Lemma unreserved_not_percent (c : ascii) :
  is_unreserved c = true → Ascii.eqb c "%" = false.
Proof. destruct c as [[] [] [] [] [] [] [] []]; by vm_compute. Qed.

(** The encoded text consists of unreserved characters and percent signs. *)
Lemma encodeURIComponent_occurs (s : string) (c : ascii) :
  is_unreserved c = false → Ascii.eqb c "%" = false →
  occurs c (encodeURIComponent s) = false.
Proof.
  intros Hc Hp.
  assert (Hdiff : ∀ d, is_unreserved d = true → Ascii.eqb d c = false).
  { intros d Hd. apply Ascii.eqb_neq. intros ->. congruence. }
  assert (Hpc : Ascii.eqb "%" c = false) by by rewrite Ascii.eqb_sym.
  induction s as [|d s IH]; [done|]. cbn [encodeURIComponent].
  destruct (is_unreserved d) eqn:Hd.
  - cbn [occurs]. by rewrite (Hdiff d Hd), IH.
  - destruct (percent_encode_cases d Hd) as (h1 & h2 & -> & H1 & H2 & _).
    change (String "%" (String h1 (String h2 EmptyString)) +:+ ?e)
      with (String "%" (String h1 (String h2 e))).
    cbn [occurs].
    by rewrite Hpc, (Hdiff h1 H1), (Hdiff h2 H2), IH.
Qed.

Lemma percent_decode_encode (s : string) :
  percent_decode (encodeURIComponent s) = s.
Proof.
  induction s as [|d s IH]; [done|]. cbn [encodeURIComponent].
  destruct (is_unreserved d) eqn:Hd.
  - cbn [percent_decode]. by rewrite (unreserved_not_percent d Hd), IH.
  - destruct (percent_encode_cases d Hd) as (h1 & h2 & -> & _ & _ & Hv).
    change (String "%" (String h1 (String h2 EmptyString)) +:+ ?e)
      with (String "%" (String h1 (String h2 e))).
    cbn [percent_decode]. rewrite Ascii.eqb_refl.
    by rewrite Hv, IH.
Qed.


Lemma split_on_first (sep : ascii) (s rest : string) :
  occurs sep s = false →
  split_on sep (s +:+ String sep rest) = s :: split_on sep rest.
Proof.
  induction s as [|c s IH]; simpl.
  - intros _. by rewrite Ascii.eqb_refl.
  - intros [Hc Hs]%orb_false_elim. by rewrite Hc, (IH Hs).
Qed.

Lemma cut_at_first (sep : ascii) (s rest : string) :
  occurs sep s = false → cut_at sep (s +:+ String sep rest) = (s, rest).
Proof.
  induction s as [|c s IH]; simpl.
  - intros _. by rewrite Ascii.eqb_refl.
  - intros [Hc Hs]%orb_false_elim. by rewrite Hc, (IH Hs).
Qed.

(** X18. Whatever the query text, the track-search URL has exactly the
    parameters [query], [limit=20] and [app_name=mindfresh], and the
    book-search URL exactly [q] and [maxResults=6]: the encoded query
    is the value of the first and cannot add or replace a parameter. *)
Theorem request_urls_have_fixed_parameters (query : string) :
  search_params (audius_url query) =
    [("query", encodeURIComponent query); ("limit", "20"); ("app_name", "mindfresh")] ∧
  search_params (books_url query) =
    [("q", encodeURIComponent query); ("maxResults", "6")] ∧
  occurs "&" (encodeURIComponent query) = false ∧
  occurs "=" (encodeURIComponent query) = false ∧
  occurs "#" (encodeURIComponent query) = false ∧
  occurs " " (encodeURIComponent query) = false.
Proof.
  assert (Hsafe : ∀ c, is_unreserved c = false → Ascii.eqb c "%" = false →
    occurs c (encodeURIComponent query) = false)
    by (intros; by apply encodeURIComponent_occurs).
  assert (Hamp := Hsafe "&"%char eq_refl eq_refl).
  split; [|split; [|repeat split; by apply Hsafe]].
  - unfold search_params.
    change (audius_url query) with
      ("https://discoveryprovider.audius.co/v1/tracks/search" +:+ String "?"
         (("query" +:+ String "=" (encodeURIComponent query))
            +:+ String "&" "limit=20&app_name=mindfresh")).
    rewrite cut_at_first by reflexivity. cbn [snd].
    rewrite split_on_first by (simpl; exact Hamp).
    rewrite map_cons, cut_at_first by reflexivity. reflexivity.
  - unfold search_params.
    change (books_url query) with
      ("https://www.googleapis.com/books/v1/volumes" +:+ String "?"
         (("q" +:+ String "=" (encodeURIComponent query)) +:+ String "&" "maxResults=6")).
    rewrite cut_at_first by reflexivity. cbn [snd].
    rewrite split_on_first by (simpl; exact Hamp).
    rewrite map_cons, cut_at_first by reflexivity. reflexivity.
Qed.

Lemma append_length (a b : string) :
  String.length (a +:+ b) = (String.length a + String.length b)%nat.
Proof. induction a as [|c a IH]; simpl; [done|]. by rewrite IH. Qed.

Lemma append_cancel_l (pre a b : string) : pre +:+ a = pre +:+ b → a = b.
Proof.
  induction pre as [|c pre IH]; simpl; intros H; [done|].
  injection H as H. by apply IH.
Qed.

Lemma append_cancel_r (suf a b : string) : a +:+ suf = b +:+ suf → a = b.
Proof.
  intros H.
  assert (Hlen : String.length a = String.length b).
  { apply (f_equal String.length) in H. rewrite !append_length in H. lia. }
  revert b H Hlen. induction a as [|c a IH]; intros [|d b] H Hlen;
    simpl in *; try discriminate; [done|].
  injection H as -> H. f_equal. apply IH; [done | lia].
Qed.

(** X19. Two different query texts never give the same request URL, for
    the track search and for the book search. *)
Theorem request_urls_differ (query1 query2 : string) :
  query1 ≠ query2 →
  audius_url query1 ≠ audius_url query2 ∧ books_url query1 ≠ books_url query2.
Proof.
  intros Hne.
  assert (Hinj : encodeURIComponent query1 = encodeURIComponent query2 → False).
  { intros He. apply Hne.
    by rewrite <- (percent_decode_encode query1), <- (percent_decode_encode query2), He. }
  split; intros Hurl; apply Hinj.
  - unfold audius_url in Hurl. apply append_cancel_l in Hurl.
    by apply append_cancel_r in Hurl.
  - unfold books_url in Hurl. apply append_cancel_l in Hurl.
    by apply append_cancel_r in Hurl.
Qed.

Lemma request_urls_differ_witness :
  audius_url "chill peaceful calm" ≠ audius_url "chill%20peaceful%20calm".
Proof.
  apply (request_urls_differ "chill peaceful calm" "chill%20peaceful%20calm").
  discriminate.
Defined.

(** * Properties of the video relay *)

Ltac unfold_relay :=
  unfold Relay.first_handler, Relay.second_handler, Relay.forward, Relay.on_error,
    Relay.read_query, Relay.await, Relay.try_catch, Relay.console_error,
    Relay.new_Response, Relay.throw, mbind, mret, Relay.Eff_bind, Relay.Eff_ret in *.

(** The answers of [new Response] by status. *)
Lemma new_Response_cases {D : Type} (body : Relay.response_body D) (st : Z)
    (hs : list Relay.header) (log : list Relay.log_entry) :
  (200 ≤ st ≤ 599 ∧ st ≠ 204 ∧ st ≠ 205 ∧ st ≠ 304 ∧
   Relay.new_Response body st hs log =
     (Relay.Done {| Relay.code := st; Relay.headers := hs; Relay.content := body |}, log)) ∨
  ((st < 200 ∨ 599 < st) ∧
   Relay.new_Response body st hs log = (Relay.Raise Relay.StatusOutOfRange, log)) ∨
  ((st = 204 ∨ st = 205 ∨ st = 304) ∧
   Relay.new_Response body st hs log = (Relay.Raise Relay.NullBodyStatus, log)).
Proof.
  unfold Relay.new_Response, Relay.throw, mret, Relay.Eff_ret.
  destruct (Z.ltb_spec st 200); simpl; [right; left; split; [lia|done]|].
  destruct (Z.ltb_spec 599 st); simpl; [right; left; split; [lia|done]|].
  destruct (Z.eqb_spec st 204); simpl; [right; right; split; [lia|done]|].
  destruct (Z.eqb_spec st 205); simpl; [right; right; split; [lia|done]|].
  destruct (Z.eqb_spec st 304); simpl; [right; right; split; [lia|done]|].
  left. repeat split; try lia.
Qed.

(** What the upstream call and its answer come to, in both copies. *)
Ltac raised :=
  left; eexists _, _; split; [reflexivity|];
  (split; [set_solver|]);
  first [ exists []; split; [by rewrite app_nil_r | simpl; lia]
        | eexists; split; [reflexivity | simpl; lia] ].

Lemma forward_cases {D : Type} (upstream : string → option (Relay.Upstream D))
    (url : string) (log : list Relay.log_entry) :
  (∃ e log', Relay.forward upstream url log = (Relay.Raise e, log') ∧
     e ∈ [Relay.FetchFailed; Relay.BodyUnreadable; Relay.StatusOutOfRange;
          Relay.NullBodyStatus] ∧
     ∃ l, log' = log ++ l ∧ (length l ≤ 1)%nat) ∨
  (∃ up d, upstream url = Some up ∧ Relay.ok up = true ∧ Relay.parsed up = Some d ∧
     Relay.forward upstream url log =
       (Relay.Done {| Relay.code := 200; Relay.headers := Relay.json_headers;
                      Relay.content := Relay.Data d |}, log)) ∨
  (∃ up t, upstream url = Some up ∧ Relay.ok up = false ∧ Relay.text up = Some t ∧
     300 ≤ Relay.status up ≤ 599 ∧ Relay.status up ≠ 304 ∧
     Relay.forward upstream url log =
       (Relay.Done {| Relay.code := Relay.status up; Relay.headers := Relay.json_headers;
                      Relay.content := Relay.ErrorMessage "Failed to fetch YouTube videos" |},
        log ++ [Relay.UpstreamError (Relay.status up) t])).
Proof.
  unfold Relay.forward, Relay.await, Relay.console_error, Relay.throw,
    mbind, mret, Relay.Eff_bind, Relay.Eff_ret.
  destruct (upstream url) as [up|] eqn:Hup; [|raised].
  destruct (Relay.ok up) eqn:Hok; simpl.
  - destruct (Relay.parsed up) as [d|] eqn:Hd;
      [|raised].
    right; left. exists up, d. repeat split; done.
  - destruct (Relay.text up) as [t|] eqn:Ht;
      [|raised].
    destruct (new_Response_cases (D:=D)
      (Relay.ErrorMessage "Failed to fetch YouTube videos") (Relay.status up)
      Relay.json_headers (log ++ [Relay.UpstreamError (Relay.status up) t]))
      as [(Hr & H4 & H5 & H304 & ->)|[[_ ->]|[_ ->]]];
      [|raised..].
    right; right. exists up, t. repeat split; try done; try lia.
    unfold Relay.ok in Hok. lia.
Qed.


(** The answer of a copy of the relay, case by case. *)
Lemma relay_handler_cases {D : Type} (c : relay_copy)
    (upstream : string → option (Relay.Upstream D)) (api_key : option string)
    (req : Relay.Request) (log : list Relay.log_entry) :
  (Relay.method req = "OPTIONS" ∧
   relay_handler c upstream api_key req log = (Relay.Done preflight_answer, log)) ∨
  (Relay.method req ≠ "OPTIONS" ∧
   ((∃ e, (Relay.payload req = Relay.NotJson ∧ e = Relay.RequestNotJson ∨
           Relay.payload req = Relay.JsonNullBody ∧ e = Relay.DestructureNull) ∧
      relay_handler c upstream api_key req log =
        (Relay.Done (error_answer 500 "Internal server error"),
         log ++ [Relay.HandlerError e])) ∨
    (∃ q, Relay.payload req = Relay.JsonBody q ∧
      ((relay_refuses c q = true ∧
        relay_handler c upstream api_key req log =
          (Relay.Done (error_answer 400 "Query parameter is required"), log)) ∨
       (relay_refuses c q = false ∧ Relay.key_missing api_key = true ∧
        relay_handler c upstream api_key req log =
          (Relay.Done (error_answer 500 "YouTube API key not configured"),
           log ++ [Relay.KeyNotFound])) ∨
       (relay_refuses c q = false ∧
        ∃ key, api_key = Some key ∧ key ≠ EmptyString ∧
          relay_handler c upstream api_key req log = caught (calls c upstream q key log)))))).
Proof.
  assert (Hkey : Relay.key_missing api_key = false →
    ∃ key, api_key = Some key ∧ key ≠ EmptyString).
  { destruct api_key as [k|]; simpl; [|done]. intros Hk. exists k. split; [done|].
    intros ->. done. }
  destruct (String.eqb_spec (Relay.method req) "OPTIONS") as [Hm|Hm].
  - left. split; [done|].
    destruct c; simpl; unfold Relay.first_handler, Relay.second_handler;
      by rewrite Hm.
  - right. split; [done|].
    apply String.eqb_neq in Hm.
    destruct c; simpl; unfold Relay.first_handler, Relay.second_handler;
      rewrite Hm; unfold Relay.try_catch, Relay.read_query, Relay.throw,
        mbind, mret, Relay.Eff_bind, Relay.Eff_ret;
      (destruct (Relay.payload req) as [| |q];
        [left; exists Relay.RequestNotJson; split; [by left|done]
        |left; exists Relay.DestructureNull; split; [by right|done]
        |right; exists q; split; [done|]]);
      simpl.
    + destruct (Relay.falsy q) eqn:Hf; [by left|].
      destruct (Relay.key_missing api_key) eqn:Hk; [right; left; by repeat split|].
      right; right. split; [done|].
      destruct (Hkey eq_refl) as (key & -> & Hne). exists key.
      split; [done|]. split; [done|].
      unfold calls, caught, Relay.lift. simpl.
      destruct (Relay.first_url q key) as [url|e]; [|done].
      by destruct (Relay.forward _ _ _) as [[r|e] log'].
    + destruct (Relay.falsy q || Relay.not_a_string q) eqn:Hf; [by left|].
      destruct (Relay.key_missing api_key) eqn:Hk; [right; left; by repeat split|].
      right; right. split; [done|].
      destruct (Hkey eq_refl) as (key & -> & Hne). exists key.
      split; [done|]. split; [done|].
      unfold calls, caught, Relay.lift. simpl.
      destruct (Relay.second_url q key) as [url|e]; [|done].
      by destruct (Relay.forward _ _ _) as [[r|e] log'].
Qed.

(** What follows the two checks, case by case. *)
Lemma calls_cases {D : Type} (c : relay_copy)
    (upstream : string → option (Relay.Upstream D)) (q : Relay.query_field) (key : string)
    (log : list Relay.log_entry) :
  (∃ e, relay_url c q key = Relay.Raise e ∧ calls c upstream q key log = (Relay.Raise e, log)) ∨
  (∃ url, relay_url c q key = Relay.Done url ∧
     calls c upstream q key log = Relay.forward upstream url log).
Proof.
  unfold calls. destruct (relay_url c q key) as [url|e]; [right|left]; eauto.
Qed.

(** X20. Either copy of the relay answers every request, whatever the
    upstream does: the handler never throws, the answer carries the CORS
    headers, its status is 200, 400, 500 or an upstream status from 300
    to 599 other than 304, and at most two lines are added to the
    console. *)
Theorem relay_always_answers {D : Type} (c : relay_copy)
    (upstream : string → option (Relay.Upstream D)) (api_key : option string)
    (req : Relay.Request) (log : list Relay.log_entry) :
  ∃ r added,
    relay_handler c upstream api_key req log = (Relay.Done r, log ++ added) ∧
    Relay.CorsHeaders ∈ Relay.headers r ∧
    (Relay.code r = 200 ∨ Relay.code r = 400 ∨ Relay.code r = 500 ∨
     (300 ≤ Relay.code r ≤ 599 ∧ Relay.code r ≠ 304)) ∧
    (length added ≤ 2)%nat.
Proof.
  destruct (relay_handler_cases c upstream api_key req log)
    as [[_ ->]|[_ [(e & _ & ->)|(q & _ & [[_ ->]|[(_ & _ & ->)|(_ & key & _ & _ & ->)]])]]].
  - exists preflight_answer, []. rewrite app_nil_r. repeat split; [set_solver|auto|simpl; lia].
  - eexists _, _. repeat split; [set_solver|auto|simpl; lia].
  - eexists _, []. rewrite app_nil_r. repeat split; [set_solver|auto|simpl; lia].
  - eexists _, _. repeat split; [set_solver|auto|simpl; lia].
  - destruct (calls_cases c upstream q key log) as [(e & _ & ->)|(url & _ & ->)].
    { eexists _, _. simpl. repeat split; [set_solver|auto|simpl; lia]. }
    destruct (forward_cases upstream url log)
      as [(e & log' & -> & _ & l & -> & Hl)|[(up & d & _ & _ & _ & ->)|(up & t & _ & _ & _ & Hr & H304 & ->)]].
    + exists (error_answer 500 "Internal server error"), (l ++ [Relay.HandlerError e]).
      simpl. rewrite app_assoc. repeat split; [set_solver|auto|].
      rewrite length_app. simpl. lia.
    + eexists _, []. rewrite app_nil_r. repeat split; [set_solver|auto|simpl; lia].
    + eexists _, _. repeat split; [set_solver| |simpl; lia]. simpl. auto.
Qed.

(** X21. The relay checks the request before anything else: a query
    that is missing (for the second copy also one that is not a string)
    is answered 400 without a look at the key or a call upstream and
    without a console line; with a query that passes, a key that is not
    set, or empty, is answered 500 without a call upstream. *)
Theorem relay_checks_before_calling {D : Type} (c : relay_copy)
    (upstream : string → option (Relay.Upstream D)) (api_key : option string)
    (req : Relay.Request) (q : Relay.query_field) (log : list Relay.log_entry) :
  Relay.method req ≠ "OPTIONS" → Relay.payload req = Relay.JsonBody q →
  (relay_refuses c q = true →
     relay_handler c upstream api_key req log =
       (Relay.Done (error_answer 400 "Query parameter is required"), log)) ∧
  (relay_refuses c q = false → Relay.key_missing api_key = true →
     relay_handler c upstream api_key req log =
       (Relay.Done (error_answer 500 "YouTube API key not configured"),
        log ++ [Relay.KeyNotFound])).
Proof.
  intros Hm Hq.
  destruct (relay_handler_cases c upstream api_key req log)
    as [[Hm' _]|[_ [(e & [[Hp _]|[Hp _]] & _)|(q' & Hq' & Hcases)]]];
    [done|congruence|congruence|].
  assert (q' = q) as -> by congruence.
  destruct Hcases as [[Hr ->]|[(Hr & Hk & ->)|(Hr & key & -> & Hne & _)]].
  - split; [done|]. intros; congruence.
  - split; [intros; congruence|done].
  - split; [intros; congruence|].
    intros _ Hk. simpl in Hk. apply String.eqb_eq in Hk. done.
Qed.

Lemma relay_checks_before_calling_witness :
  relay_handler SecondCopy (unreachable_upstream (D:=unit)) None
    (post (value_query "42")) []
    = (Relay.Done (error_answer 400 "Query parameter is required"), []) ∧
  relay_handler FirstCopy (unreachable_upstream (D:=unit)) (Some EmptyString)
    (post (text_query "calm")) []
    = (Relay.Done (error_answer 500 "YouTube API key not configured"), [Relay.KeyNotFound]).
Proof.
  pose proof (relay_checks_before_calling SecondCopy (unreachable_upstream (D:=unit)) None
    (post (value_query "42")) (value_query "42") []
    ltac:(discriminate) eq_refl) as [H400 _].
  pose proof (relay_checks_before_calling FirstCopy (unreachable_upstream (D:=unit))
    (Some EmptyString) (post (text_query "calm")) (text_query "calm") []
    ltac:(discriminate) eq_refl) as [_ H500].
  split; [apply H400; reflexivity | apply H500; reflexivity].
Defined.

(** X22. What the relay answers is data only when the upstream answered
    with a success status and a body that parses, and then it is that
    data with status 200; every other answer to a request that is not a
    preflight carries one of four fixed messages, never a text of the
    upstream or the key. *)
Theorem relay_answers_data_or_fixed_message {D : Type} (c : relay_copy)
    (upstream : string → option (Relay.Upstream D)) (api_key : option string)
    (req : Relay.Request) (log log' : list Relay.log_entry) (r : Relay.Response D) :
  relay_handler c upstream api_key req log = (Relay.Done r, log') →
  (∀ d, Relay.content r = Relay.Data d →
     Relay.code r = 200 ∧
     ∃ q key url up, Relay.payload req = Relay.JsonBody q ∧ api_key = Some key ∧
       relay_url c q key = Relay.Done url ∧ upstream url = Some up ∧
       Relay.ok up = true ∧ Relay.parsed up = Some d) ∧
  (∀ message, Relay.content r = Relay.ErrorMessage message →
     Relay.code r ≠ 200 ∧
     message ∈ ["Query parameter is required"; "YouTube API key not configured";
                "Failed to fetch YouTube videos"; "Internal server error"]) ∧
  (Relay.content r = Relay.PlainOk ↔ Relay.method req = "OPTIONS").
Proof.
  intros Hrun.
  destruct (relay_handler_cases c upstream api_key req log)
    as [[Hm He]|[Hm [(e & _ & He)|(q & Hq & [[_ He]|[(_ & _ & He)|(_ & key & Hk & _ & He)]])]]];
    rewrite He in Hrun; clear He.
  - injection Hrun as <- <-. repeat split; try done.
  - injection Hrun as <- <-. repeat split; try done; intros; simplify_eq; set_solver.
  - injection Hrun as <- <-. repeat split; try done; intros; simplify_eq; set_solver.
  - injection Hrun as <- <-. repeat split; try done; intros; simplify_eq; set_solver.
  - destruct (calls_cases c upstream q key log) as [(e & _ & Hc)|(url & Hurl & Hc)];
      rewrite Hc in Hrun; clear Hc.
    { injection Hrun as <- <-. repeat split; try done; intros; simplify_eq; set_solver. }
    destruct (forward_cases upstream url log)
      as [(e & l' & Hf & _)|[(up & d & Hup & Hok & Hd & Hf)|(up & t & Hup & Hok & Ht & Hr & H304 & Hf)]];
      rewrite Hf in Hrun; injection Hrun as <- <-.
    + repeat split; try done; intros; simplify_eq; set_solver.
    + split; [|split].
      * intros d' [= <-]. split; [done|]. by exists q, key, url, up.
      * intros m [=].
      * split; [done|]. intros; congruence.
    + split; [|split].
      * intros d' [=].
      * intros m [= <-]. split; [simpl; lia | set_solver].
      * split; [done|]. intros; congruence.
Qed.

Lemma relay_answers_data_or_fixed_message_witness :
  relay_handler SecondCopy (upstream_answers a_page_of_results) (Some "secret")
    (post (text_query "calm music")) []
    = (Relay.Done {| Relay.code := 200; Relay.headers := Relay.json_headers;
                     Relay.content := Relay.Data "six videos" |}, []) ∧
  ∃ url up, relay_url SecondCopy (text_query "calm music") "secret" = Relay.Done url ∧
    upstream_answers a_page_of_results url = Some up ∧
    Relay.parsed up = Some "six videos".
Proof.
  split; [reflexivity|].
  destruct (relay_answers_data_or_fixed_message SecondCopy
    (upstream_answers a_page_of_results) (Some "secret")
    (post (text_query "calm music")) [] []
    {| Relay.code := 200; Relay.headers := Relay.json_headers;
       Relay.content := Relay.Data "six videos" |} eq_refl) as (Hdata & _).
  destruct (Hdata "six videos" eq_refl)
    as (_ & q & key & url & up & Hq & Hk & Hurl & Hup & _ & Hd).
  injection Hq as <-. injection Hk as <-. by exists url, up.
Defined.

(** X23. When the upstream answers a status that is not a success, the
    relay logs status and text and answers with that same status and the
    message of a failed fetch; a status that cannot be the status of an
    answer with a body (below 200, above 599, or 304) makes it answer
    500 instead. *)
Theorem relay_passes_upstream_status {D : Type} (c : relay_copy)
    (upstream : string → option (Relay.Upstream D)) (key : string)
    (req : Relay.Request) (q : Relay.query_field) (log : list Relay.log_entry)
    (url : string) (up : Relay.Upstream D) (t : string) :
  Relay.method req ≠ "OPTIONS" → Relay.payload req = Relay.JsonBody q →
  relay_refuses c q = false → key ≠ EmptyString →
  relay_url c q key = Relay.Done url →
  upstream url = Some up → Relay.ok up = false → Relay.text up = Some t →
  (300 ≤ Relay.status up ≤ 599 → Relay.status up ≠ 304 →
     relay_handler c upstream (Some key) req log =
       (Relay.Done (error_answer (Relay.status up) "Failed to fetch YouTube videos"),
        log ++ [Relay.UpstreamError (Relay.status up) t])) ∧
  (Relay.status up < 200 ∨ 599 < Relay.status up ∨ Relay.status up = 304 →
     ∃ e, relay_handler c upstream (Some key) req log =
       (Relay.Done (error_answer 500 "Internal server error"),
        log ++ [Relay.UpstreamError (Relay.status up) t; Relay.HandlerError e])).
Proof.
  intros Hm Hq Href Hkey Hurl Hup Hok Ht.
  destruct (relay_handler_cases c upstream (Some key) req log)
    as [[Hm' _]|[_ [(e & [[Hp _]|[Hp _]] & _)|(q' & Hq' & Hcases)]]];
    [done|congruence|congruence|].
  assert (q' = q) as -> by congruence.
  destruct Hcases as [[Hr _]|[(_ & Hk & _)|(_ & key' & [= <-] & _ & ->)]];
    [congruence| |].
  { simpl in Hk. apply String.eqb_eq in Hk. done. }
  unfold calls. rewrite Hurl.
  unfold Relay.forward, Relay.await, Relay.console_error,
    mbind, mret, Relay.Eff_bind, Relay.Eff_ret.
  rewrite Hup, Hok, Ht. simpl.
  destruct (new_Response_cases (D:=D)
    (Relay.ErrorMessage "Failed to fetch YouTube videos") (Relay.status up)
    Relay.json_headers (log ++ [Relay.UpstreamError (Relay.status up) t]))
    as [(Hr & H4 & H5 & H304 & ->)|[[Hr ->]|[Hr ->]]]; simpl.
  - split; [done|]. intros; lia.
  - split; [intros; lia|]. intros _. eexists. by rewrite <- app_assoc.
  - split; [intros; unfold Relay.ok in Hok; lia|]. intros _. eexists.
    by rewrite <- app_assoc.
Qed.

Lemma relay_passes_upstream_status_witness :
  relay_handler FirstCopy
    (upstream_answers {| Relay.status := 403; Relay.text := Some "quota";
                         Relay.parsed := (None : option unit) |})
    (Some "secret") (post (text_query "calm")) []
  = (Relay.Done (error_answer 403 "Failed to fetch YouTube videos"),
     [Relay.UpstreamError 403 "quota"]).
Proof.
  pose proof (relay_passes_upstream_status FirstCopy
    (upstream_answers {| Relay.status := 403; Relay.text := Some "quota";
                         Relay.parsed := (None : option unit) |})
    "secret" (post (text_query "calm")) (text_query "calm") [] _
    {| Relay.status := 403; Relay.text := Some "quota"; Relay.parsed := None |} "quota"
    ltac:(discriminate) eq_refl eq_refl ltac:(discriminate) eq_refl eq_refl eq_refl eq_refl)
    as [Hpass _].
  apply Hpass; simpl; lia.
Defined.





(** An unencoded key with an ampersand does add a parameter in the first copy. *)
Example first_url_key_with_ampersand :
  ∃ url, Relay.first_url (text_query "calm") "k&maxResults=50" = Relay.Done url ∧
    search_params url =
      [("part", "snippet"); ("q", "calm"); ("type", "video"); ("maxResults", "6");
       ("key", "k"); ("maxResults", "50")].
Proof. eexists. split; reflexivity. Qed.

(** The URLs of a query that is one unpaired surrogate: the first copy
    throws, the second writes the replacement character. *)
Example urls_of_a_lone_surrogate :
  Relay.first_url (Relay.QueryString lone_surrogate) "k" = Relay.Raise Relay.MalformedURI ∧
  Relay.second_url (Relay.QueryString lone_surrogate) "k" =
    Relay.Done ("https://www.googleapis.com/youtube/v3/search?part=snippet" +:+
                "&q=%EF%BF%BD&type=video&maxResults=6&key=k").
Proof. split; reflexivity. Qed.





(** A number as the query: the second copy refuses it, the first
    forwards its text. *)
Example relay_copies_on_a_number :
  relay_handler SecondCopy (upstream_answers a_page_of_results) (Some "secret")
    (post (value_query "42")) []
    = (Relay.Done (error_answer 400 "Query parameter is required"), []) ∧
  relay_handler FirstCopy (upstream_answers a_page_of_results) (Some "secret")
    (post (value_query "42")) []
    = (Relay.Done {| Relay.code := 200; Relay.headers := Relay.json_headers;
                     Relay.content := Relay.Data "six videos" |}, []).
Proof. split; reflexivity. Qed.

(** An object that has no primitive value as the query: the first copy
    answers 500 without a call upstream, the second refuses it. *)
Example relay_copies_on_an_object :
  relay_handler FirstCopy (upstream_answers a_page_of_results) (Some "secret")
    (post (Relay.QueryOther None)) []
    = (Relay.Done (error_answer 500 "Internal server error"),
       [Relay.HandlerError Relay.NoPrimitiveValue]) ∧
  relay_handler SecondCopy (upstream_answers a_page_of_results) (Some "secret")
    (post (Relay.QueryOther None)) []
    = (Relay.Done (error_answer 400 "Query parameter is required"), []).
Proof. split; reflexivity. Qed.

(** * Properties of the journal page *)

Ltac unfold_journal :=
  unfold Journal.outcome, Journal.exec, Journal.fetchJournalEntries, Journal.deleteEntry,
    Journal.try_finally, Journal.try_catch, Journal.await, Journal.throw,
    Journal.setEntries, Journal.setLoading, Journal.toast, Journal.console_error,
    mbind, mret, Journal.Eff_bind, Journal.Eff_ret in *.

Lemma deleteEntry_cases (w : Journal.world) (user : option User) (entryId : string)
    (st : Journal.state) :
  (Journal.delete_entry w entryId (user_id <$> user) = Some None ∧
   Journal.deleteEntry w user entryId st =
     (Journal.Done (),
      {| Journal.entries :=
           List.filter (λ entry, negb (String.eqb (Journal.id entry) entryId))
             (Journal.entries st);
         Journal.loading := Journal.loading st;
         Journal.toasts := Journal.toasts st ++ [Journal.deleted];
         Journal.console := Journal.console st |})) ∨
  (Journal.delete_entry w entryId (user_id <$> user) ≠ Some None ∧
   Journal.deleteEntry w user entryId st =
     (Journal.Done (),
      {| Journal.entries := Journal.entries st;
         Journal.loading := Journal.loading st;
         Journal.toasts := Journal.toasts st ++ [Journal.delete_failed];
         Journal.console := Journal.console st ++ ["Failed to delete entry:"] |})).
Proof.
  unfold_journal.
  destruct (Journal.delete_entry w entryId (user_id <$> user)) as [[e|]|]; simpl;
    [right|left|right]; by split.
Qed.

(** X26. A delete that the table accepts removes from the list every
    entry with that id and nothing else, keeps the order of the others,
    and notifies success, also when no entry has the id: then the list
    is unchanged. *)
Theorem deleteEntry_removes_the_entry
    (w : Journal.world) (user : option User) (entryId : string) (st : Journal.state) :
  Journal.delete_entry w entryId (user_id <$> user) = Some None →
  (∀ e, e ∈ Journal.entries (Journal.exec (Journal.deleteEntry w user entryId) st) ↔
        e ∈ Journal.entries st ∧ Journal.id e ≠ entryId) ∧
  Journal.entries (Journal.exec (Journal.deleteEntry w user entryId) st)
    `sublist_of` Journal.entries st ∧
  (∀ k, k `sublist_of` Journal.entries st → Forall (λ e, Journal.id e ≠ entryId) k →
        k `sublist_of` Journal.entries (Journal.exec (Journal.deleteEntry w user entryId) st)) ∧
  ((∀ e, e ∈ Journal.entries st → Journal.id e ≠ entryId) →
     Journal.entries (Journal.exec (Journal.deleteEntry w user entryId) st)
       = Journal.entries st) ∧
  Journal.toasts (Journal.exec (Journal.deleteEntry w user entryId) st)
    = Journal.toasts st ++ [Journal.deleted].
Proof.
  intros Hw. unfold Journal.exec.
  destruct (deleteEntry_cases w user entryId st) as [[_ ->]|[Hne _]]; [|done]. simpl.
  assert (Hneq : ∀ e, negb (String.eqb (Journal.id e) entryId) = true ↔
                      Journal.id e ≠ entryId).
  { intros e. rewrite negb_true_iff. apply String.eqb_neq. }
  split; [|split; [|split; [|split]]].
  - intros e. rewrite !list_elem_of_In, filter_In, Hneq. done.
  - apply filter_sublist_of.
  - intros k Hk Hall. apply filter_greatest; [done|].
    eapply Forall_impl; [exact Hall|]. intros e He. by apply Hneq.
  - intros Hnone. induction (Journal.entries st) as [|e l IH]; simpl; [done|].
    assert (He : negb (String.eqb (Journal.id e) entryId) = true).
    { apply Hneq, Hnone. set_solver. }
    rewrite He. f_equal. apply IH. intros e' He'. apply Hnone. set_solver.
  - done.
Qed.

Lemma deleteEntry_removes_the_entry_witness :
  Journal.entries (Journal.exec (Journal.deleteEntry journal_deletes None "b")
    (journal_with [an_entry "a"; an_entry "b"; an_entry "c"]))
  `sublist_of` [an_entry "a"; an_entry "b"; an_entry "c"] ∧
  Journal.entries (Journal.exec (Journal.deleteEntry journal_deletes None "b")
    (journal_with [an_entry "a"; an_entry "b"; an_entry "c"]))
  = [an_entry "a"; an_entry "c"].
Proof.
  pose proof (deleteEntry_removes_the_entry journal_deletes None "b"
    (journal_with [an_entry "a"; an_entry "b"; an_entry "c"]) eq_refl) as (_ & Hs & _).
  split; [exact Hs | reflexivity].
Defined.

(** X27. [deleteEntry] never throws and notifies exactly once, in every
    outcome. When the delete is rejected or answers an error the list of
    entries is left as it is; in no outcome does an entry appear or the
    loading flag change. *)
Theorem deleteEntry_notifies_once
    (w : Journal.world) (user : option User) (entryId : string) (st : Journal.state) :
  Journal.outcome (Journal.deleteEntry w user entryId) st = Journal.Done () ∧
  (∃ t, Journal.toasts (Journal.exec (Journal.deleteEntry w user entryId) st)
          = Journal.toasts st ++ [t] ∧ (t = Journal.deleted ∨ t = Journal.delete_failed)) ∧
  Journal.entries (Journal.exec (Journal.deleteEntry w user entryId) st)
    `sublist_of` Journal.entries st ∧
  Journal.loading (Journal.exec (Journal.deleteEntry w user entryId) st)
    = Journal.loading st ∧
  (Journal.delete_entry w entryId (user_id <$> user) ≠ Some None →
     Journal.entries (Journal.exec (Journal.deleteEntry w user entryId) st)
       = Journal.entries st ∧
     Journal.toasts (Journal.exec (Journal.deleteEntry w user entryId) st)
       = Journal.toasts st ++ [Journal.delete_failed]).
Proof.
  unfold Journal.outcome, Journal.exec.
  destruct (deleteEntry_cases w user entryId st) as [[Hw ->]|[Hw ->]]; simpl.
  - split; [done|]. split; [eauto|]. split; [apply filter_sublist_of|]. split; [done|].
    intros Hne. done.
  - split; [done|]. split; [eauto|]. split; [done|]. split; done.
Qed.

Lemma deleteEntry_notifies_once_witness :
  Journal.exec (Journal.deleteEntry journal_offline None "b")
    (journal_with [an_entry "a"; an_entry "b"])
  = {| Journal.entries := [an_entry "a"; an_entry "b"]; Journal.loading := false;
       Journal.toasts := [Journal.delete_failed];
       Journal.console := ["Failed to delete entry:"] |}.
Proof.
  pose proof (deleteEntry_notifies_once journal_offline None "b"
    (journal_with [an_entry "a"; an_entry "b"])) as (_ & _ & _ & _ & Hfail).
  destruct (Hfail ltac:(discriminate)) as [He Ht]. reflexivity.
Defined.

Lemma filter_filter_comm {A : Type} (p q : A → bool) (l : list A) :
  List.filter p (List.filter q l) = List.filter q (List.filter p l).
Proof.
  induction l as [|x l IH]; simpl; [done|].
  destruct (p x) eqn:Hp, (q x) eqn:Hq; simpl; rewrite ?Hp, ?Hq, ?IH; done.
Qed.

Lemma filter_filter_same {A : Type} (p : A → bool) (l : list A) :
  List.filter p (List.filter p l) = List.filter p l.
Proof.
  induction l as [|x l IH]; simpl; [done|].
  destruct (p x) eqn:Hp; simpl; rewrite ?Hp, ?IH; done.
Qed.

(** X28. Accepted deletes compose on the list: two of them leave the
    same entries in whichever order they complete, and deleting the same
    id a second time removes nothing more. *)
Theorem deleteEntry_composes
    (w : Journal.world) (user : option User) (id1 id2 : string) (st : Journal.state) :
  Journal.delete_entry w id1 (user_id <$> user) = Some None →
  Journal.delete_entry w id2 (user_id <$> user) = Some None →
  Journal.entries (Journal.exec (Journal.deleteEntry w user id2)
    (Journal.exec (Journal.deleteEntry w user id1) st))
  = Journal.entries (Journal.exec (Journal.deleteEntry w user id1)
    (Journal.exec (Journal.deleteEntry w user id2) st)) ∧
  Journal.entries (Journal.exec (Journal.deleteEntry w user id1)
    (Journal.exec (Journal.deleteEntry w user id1) st))
  = Journal.entries (Journal.exec (Journal.deleteEntry w user id1) st).
Proof.
  intros H1 H2. unfold Journal.exec.
  destruct (deleteEntry_cases w user id1 st) as [[_ E1]|[Hne _]]; [|done].
  destruct (deleteEntry_cases w user id2 st) as [[_ E2]|[Hne _]]; [|done].
  rewrite E1, E2. simpl.
  destruct (deleteEntry_cases w user id2 (Journal.deleteEntry w user id1 st).2)
    as [[_ E21]|[Hne _]]; [|done].
  destruct (deleteEntry_cases w user id1 (Journal.deleteEntry w user id2 st).2)
    as [[_ E12]|[Hne _]]; [|done].
  destruct (deleteEntry_cases w user id1 (Journal.deleteEntry w user id1 st).2)
    as [[_ E11]|[Hne _]]; [|done].
  rewrite E1 in E21, E11. rewrite E2 in E12. simpl in E21, E12, E11.
  rewrite E21, E12, E11. simpl.
  split; [apply filter_filter_comm | apply filter_filter_same].
Qed.

Lemma deleteEntry_composes_witness :
  Journal.entries (Journal.exec (Journal.deleteEntry journal_deletes None "c")
    (Journal.exec (Journal.deleteEntry journal_deletes None "a")
      (journal_with [an_entry "a"; an_entry "b"; an_entry "c"])))
  = Journal.entries (Journal.exec (Journal.deleteEntry journal_deletes None "a")
    (Journal.exec (Journal.deleteEntry journal_deletes None "c")
      (journal_with [an_entry "a"; an_entry "b"; an_entry "c"]))).
Proof.
  pose proof (deleteEntry_composes journal_deletes None "a" "c"
    (journal_with [an_entry "a"; an_entry "b"; an_entry "c"]) eq_refl eq_refl) as [Hc _].
  exact Hc.
Defined.

(** X29. With a signed-in user [fetchJournalEntries] never throws and
    always ends with [loading] false: on an answer without error the
    entries are replaced by the answered rows (by the empty list when
    the data is null) without a notification, and otherwise they are
    kept and one failure notification is added. Without a user the call
    does nothing, so a page that is loading keeps showing its loading
    screen. *)
Theorem fetchJournalEntries_clears_loading
    (w : Journal.world) (user : option User) (st : Journal.state) :
  Journal.outcome (Journal.fetchJournalEntries w user) st = Journal.Done () ∧
  (∀ u, user = Some u →
     Journal.loading (Journal.exec (Journal.fetchJournalEntries w user) st) = false ∧
     (∀ r, Journal.select_entries w (user_id u) = Some r → Journal.select_error r = None →
        Journal.entries (Journal.exec (Journal.fetchJournalEntries w user) st)
          = default [] (Journal.data r) ∧
        Journal.toasts (Journal.exec (Journal.fetchJournalEntries w user) st)
          = Journal.toasts st) ∧
     ((Journal.select_entries w (user_id u) = None ∨
       ∃ r e, Journal.select_entries w (user_id u) = Some r ∧
              Journal.select_error r = Some e) →
        Journal.entries (Journal.exec (Journal.fetchJournalEntries w user) st)
          = Journal.entries st ∧
        Journal.toasts (Journal.exec (Journal.fetchJournalEntries w user) st)
          = Journal.toasts st ++ [Journal.load_failed])) ∧
  (user = None →
     Journal.exec (Journal.fetchJournalEntries w user) st = st ∧
     (Journal.loading st = true →
      Journal.render (Journal.exec (Journal.fetchJournalEntries w user) st)
        = Journal.LoadingScreen)).
Proof.
  destruct user as [u|]; unfold_journal.
  - split; [|split; [|done]].
    + by destruct (Journal.select_entries w (user_id u)) as [[d [e|]]|].
    + intros u' [= <-]. split; [|split].
      * by destruct (Journal.select_entries w (user_id u)) as [[d [e|]]|].
      * intros r Hr He. rewrite Hr. simpl. by rewrite He.
      * intros [Hr|(r & e & Hr & He)]; rewrite Hr; simpl; [done|]. by rewrite He.
  - split; [done|]. split; [done|]. intros _. split; [done|].
    intros Hl. unfold Journal.render. simpl. by rewrite Hl.
Qed.

Lemma fetchJournalEntries_clears_loading_witness :
  Journal.loading (Journal.exec (Journal.fetchJournalEntries journal_offline the_user)
    Journal.initial_state) = false ∧
  Journal.render (Journal.exec (Journal.fetchJournalEntries journal_offline None)
    Journal.initial_state) = Journal.LoadingScreen.
Proof.
  pose proof (fetchJournalEntries_clears_loading journal_offline the_user
    Journal.initial_state) as (_ & Huser & _).
  pose proof (fetchJournalEntries_clears_loading journal_offline None
    Journal.initial_state) as (_ & _ & Hnone).
  destruct (Huser {| user_id := "u1" |} eq_refl) as [Hl _].
  destruct (Hnone eq_refl) as [_ Hr].
  split; [exact Hl | apply Hr; reflexivity].
Defined.
